(** * Chip circuit simulator (project2.cpp): shallow embedding and properties

    The program keeps every chip in the array [allChips]; a [Chip*] is
    therefore modelled as an index into that array ([ptr]), the null pointer
    as [None], and the collection of all chip objects as a [list Chip.t]
    that is read with [!!] and updated in place.  C++ [double] is IEEE
    binary64, i.e. Rocq's primitive [float].  Console output is a list of
    lines; the only line whose text depends on number formatting carries
    its [double] unformatted. *)

From Stdlib Require Import Floats.PrimFloat Strings.Ascii.
From stdpp Require Import base option list strings relations.

(** ** Outcomes of running a piece of the program *)

(** [Fault] stands for undefined behaviour of the C++ program (a null
    [Chip*] is dereferenced); [OutOfFuel] for a recursion that did not
    finish within the given budget, which is how divergence on a cyclic
    circuit shows up. *)
Inductive outcome (A : Type) : Type :=
| Ok (a : A)
| Fault
| OutOfFuel.
Arguments Ok {A} a.
Arguments Fault {A}.
Arguments OutOfFuel {A}.

Definition outcome_bind {A B : Type} (f : A -> outcome B) (m : outcome A) : outcome B :=
  match m with
  | Ok a => f a
  | Fault => Fault
  | OutOfFuel => OutOfFuel
  end.

#[global] Instance outcome_ret : MRet outcome := fun _ a => Ok a.
#[global] Instance outcome_mbind : MBind outcome := fun _ _ f m => outcome_bind f m.

(** One line written to [cout]. *)
Inductive line : Type :=
| Text (s : string)
| OutputValue (v : float).   (* "The output value from this circuit is " << v *)

Abbreviation ptr := nat (only parsing).

(** [x != 0] on doubles. *)
Definition nonzero (x : float) : bool := negb (PrimFloat.eqb x 0%float).

(** ** class Chip *)

Module Chip.

Record t : Type := Make {
  chipType : ascii;
  id : string;
  input1 : option ptr;
  input2 : option ptr;
  output : option ptr;
  inputValue : float;
  result : float
}.

(** The constructor sets the type, the id and the three pointers.  The two
    [double] members are left uninitialised; [junk] is whatever they hold. *)
Definition create (type : ascii) (cid : string) (junk : float * float) : t :=
  Make type cid None None None (fst junk) (snd junk).

Definition with_input1 (p : option ptr) (c : t) : t :=
  Make (chipType c) (id c) p (input2 c) (output c) (inputValue c) (result c).
Definition with_input2 (p : option ptr) (c : t) : t :=
  Make (chipType c) (id c) (input1 c) p (output c) (inputValue c) (result c).
Definition with_output (p : option ptr) (c : t) : t :=
  Make (chipType c) (id c) (input1 c) (input2 c) p (inputValue c) (result c).
Definition with_inputValue (v : float) (c : t) : t :=
  Make (chipType c) (id c) (input1 c) (input2 c) (output c) v (result c).
Definition with_result (v : float) (c : t) : t :=
  Make (chipType c) (id c) (input1 c) (input2 c) (output c) (inputValue c) v.

Abbreviation heap := (list t) (only parsing).

(** [p->...] for a non-null [p]. *)
Definition deref (h : heap) (p : ptr) : outcome t :=
  match h !! p with
  | Some c => Ok c
  | None => Fault
  end.

(** [p->member] for a possibly null [p]. *)
Definition arrow {A : Type} (h : heap) (p : option ptr) (member : t -> A) : outcome A :=
  match p with
  | Some q => c ← deref h q; Ok (member c)
  | None => Fault
  end.

Definition setOutput (h : heap) (self : ptr) (outputChip : option ptr) : heap :=
  alter (with_output outputChip) self h.

Definition setInput1 (h : heap) (self : ptr) (inputChip : option ptr) : outcome heap :=
  let h1 := alter (with_input1 inputChip) self h in
  match inputChip with
  | Some b => Ok (setOutput h1 b (Some self))
  | None => Fault
  end.

Definition setInput2 (h : heap) (self : ptr) (inputChip : option ptr) : outcome heap :=
  let h1 := alter (with_input2 inputChip) self h in
  match inputChip with
  | Some b => Ok (setOutput h1 b (Some self))
  | None => Fault
  end.

Definition setInputValue (h : heap) (self : ptr) (value : float) : heap :=
  alter (with_inputValue value) self h.

Definition setResult (h : heap) (self : ptr) (value : float) : heap :=
  alter (with_result value) self h.

Definition getResult (h : heap) (p : option ptr) : outcome float := arrow h p result.
Definition getId (h : heap) (p : option ptr) : outcome string := arrow h p id.
#[global] Arguments getResult : simpl never.
#[global] Arguments getId : simpl never.

(** The two lines [if (input1) input1->compute(); if (input2)
    input2->compute();] of [compute], with the recursive call abstracted
    as [rec].  The members are re-read from the object after the first
    call, as the code does. *)
Definition compute_inputs (rec : heap -> ptr -> outcome (heap * list line))
    (h : heap) (self : ptr) : outcome (heap * list line) :=
  c ← deref h self;
  '(h1, o1) ← match input1 c with
              | Some p => rec h p
              | None => Ok (h, [])
              end;
  c1 ← deref h1 self;
  '(h2, o2) ← match input2 c1 with
              | Some p => rec h1 p
              | None => Ok (h1, [])
              end;
  Ok (h2, o1 ++ o2).

(** The chain of [if (chipType == ...)] that follows in [compute]. *)
Definition operate (h : heap) (self : ptr) : outcome (heap * list line) :=
  c ← deref h self;
  if Ascii.eqb (chipType c) "A" then
    a ← getResult h (input1 c); b ← getResult h (input2 c);
    Ok (setResult h self (a + b)%float, [])
  else if Ascii.eqb (chipType c) "S" then
    a ← getResult h (input1 c); b ← getResult h (input2 c);
    Ok (setResult h self (a - b)%float, [])
  else if Ascii.eqb (chipType c) "M" then
    a ← getResult h (input1 c); b ← getResult h (input2 c);
    Ok (setResult h self (a * b)%float, [])
  else if Ascii.eqb (chipType c) "D" then
    b ← getResult h (input2 c);
    if nonzero b then
      a ← getResult h (input1 c);
      b' ← getResult h (input2 c);
      Ok (setResult h self (a / b')%float, [])
    else
      Ok (setResult h self 0%float,
          [Text ("Error: Division by zero in chip " +:+ id c)])
  else if Ascii.eqb (chipType c) "N" then
    a ← getResult h (input1 c);
    if nonzero a then
      a' ← getResult h (input1 c);
      Ok (setResult h self (- a')%float, [])
    else Ok (h, [])
  else Ok (h, []).

Fixpoint compute (fuel : nat) (h : heap) (self : ptr) : outcome (heap * list line) :=
  match fuel with
  | O => OutOfFuel
  | S fuel' =>
    c ← deref h self;
    if Ascii.eqb (chipType c) "I" then
      Ok (setResult h self (inputValue c), [])
    else
      '(h2, o) ← compute_inputs (compute fuel') h self;
      '(h3, o3) ← operate h2 self;
      Ok (h3, o ++ o3)
  end.

(** [(p ? p->getId() : "None")] *)
Definition getId_or_None (h : heap) (p : option ptr) : outcome string :=
  match p with
  | Some _ => getId h p
  | None => Ok "None"
  end.

Definition display (h : heap) (self : ptr) : outcome (list line) :=
  c ← deref h self;
  if Ascii.eqb (chipType c) "I" then
    o ← getId_or_None h (output c);
    Ok [Text (id c +:+ ", Output = " +:+ o)]
  else if Ascii.eqb (chipType c) "O" then
    i1 ← getId_or_None h (input1 c);
    Ok [Text (id c +:+ ", Input 1 = " +:+ i1)]
  else
    i1 ← getId_or_None h (input1 c);
    i2 ← getId_or_None h (input2 c);
    o ← getId h (output c);
    Ok [Text (id c +:+ ", Input 1 = " +:+ i1 +:+ ", Input 2 = " +:+ i2
               +:+ ", Output = " +:+ o)].

End Chip.

(** ** main *)

(** The commands read in step 5.  [Unknown] is any other verb: no branch
    of the loop body matches it. *)
Inductive command : Type :=
| Connect (inputId outputId : string)          (* A <inputId> <outputId> *)
| SetInput (chipId : string) (value : float)   (* I <chipId> <value> *)
| QueryOutput (outputChipId : string)          (* O <chipId> *)
| Unknown (verb : string).

(** [chipId[0]]; for an empty string this is the terminating NUL. *)
Definition type_of_id (chipId : string) : ascii :=
  match chipId with
  | String ch _ => ch
  | EmptyString => Ascii.zero
  end.

(** Step 3: one chip per id, in input order. *)
Definition new_chips (ids : list (string * (float * float))) : Chip.heap :=
  map (fun e => Chip.create (type_of_id (fst e)) (fst e) (snd e)) ids.

(** The lookup loop of the "A" command over [allChips[j..]]: no [break], so
    each of the two pointers ends at the last chip carrying the id. *)
Fixpoint find_both (cs : list Chip.t) (j : nat) (inputId outputId : string)
    (inputChip outputChip : option ptr) : option ptr * option ptr :=
  match cs with
  | [] => (inputChip, outputChip)
  | c :: cs' =>
    let inputChip' := if String.eqb (Chip.id c) inputId then Some j else inputChip in
    let outputChip' := if String.eqb (Chip.id c) outputId then Some j else outputChip in
    find_both cs' (S j) inputId outputId inputChip' outputChip'
  end.

(** The lookup loops of the "I" and "O" commands: they [break] at the first
    chip carrying the id. *)
Fixpoint find_first (cs : list Chip.t) (j : nat) (chipId : string) : option ptr :=
  match cs with
  | [] => None
  | c :: cs' =>
    if String.eqb (Chip.id c) chipId then Some j else find_first cs' (S j) chipId
  end.

Definition is_type (c : Chip.t) (ty : ascii) : bool := Ascii.eqb (Chip.chipType c) ty.

Definition connect (h : Chip.heap) (inputId outputId : string) : outcome Chip.heap :=
  let '(inputChip, outputChip) := find_both h 0 inputId outputId None None in
  match outputChip with
  | None => Fault
  | Some out =>
    c ← Chip.deref h out;
    if is_type c "N" || is_type c "O" then
      Chip.setInput1 h out inputChip
    else if is_type c "A" || is_type c "S" || is_type c "M" || is_type c "D" then
      match Chip.input1 c with
      | None => Chip.setInput1 h out inputChip
      | Some _ => Chip.setInput2 h out inputChip
      end
    else Ok h
  end.

Definition set_input (h : Chip.heap) (chipId : string) (value : float) : Chip.heap :=
  match find_first h 0 chipId with
  | Some p => Chip.setInputValue h p value
  | None => h
  end.

Definition computation_starts : line := Text "Computation Starts ".

Definition query_output (fuel : nat) (h : Chip.heap) (outputChipId : string)
    : outcome (Chip.heap * list line) :=
  match find_first h 0 outputChipId with
  | Some p =>
    c ← Chip.deref h p;
    if is_type c "O" then
      '(h', o) ← Chip.compute fuel h p;
      c' ← Chip.deref h' p;
      v ← Chip.getResult h' (Chip.input1 c');
      Ok (h', computation_starts :: o ++ [OutputValue v])
    else
      '(h', o) ← Chip.compute fuel h p;
      c' ← Chip.deref h' p;
      Ok (h', computation_starts :: o ++ [OutputValue (Chip.result c')])
  | None => Ok (h, [computation_starts])
  end.

(** One iteration of the command loop. *)
Definition step (fuel : nat) (h : Chip.heap) (cmd : command)
    : outcome (Chip.heap * list line) :=
  match cmd with
  | Connect inputId outputId => h' ← connect h inputId outputId; Ok (h', [])
  | SetInput chipId value => Ok (set_input h chipId value, [])
  | QueryOutput outputChipId => query_output fuel h outputChipId
  | Unknown _ => Ok (h, [])
  end.

Fixpoint run (fuel : nat) (h : Chip.heap) (cmds : list command)
    : outcome (Chip.heap * list line) :=
  match cmds with
  | [] => Ok (h, [])
  | cmd :: cmds' =>
    '(h1, o1) ← step fuel h cmd;
    '(h2, o2) ← run fuel h1 cmds';
    Ok (h2, o1 ++ o2)
  end.

(** One of the two display loops of step 6 over [allChips[i..]]; [shown]
    is the loop's [if]. *)
Fixpoint display_pass (shown : Chip.t -> bool) (h : Chip.heap)
    (cs : list Chip.t) (i : nat) : outcome (list line) :=
  match cs with
  | [] => Ok []
  | c :: cs' =>
    l ← (if shown c then Chip.display h i else Ok []);
    ls ← display_pass shown h cs' (S i);
    Ok (l ++ ls)
  end.

Definition first_pass (c : Chip.t) : bool := negb (String.eqb (Chip.id c) "O50").
Definition second_pass (c : Chip.t) : bool := is_type c "O".

Definition show_connections (h : Chip.heap) : outcome (list line) :=
  l1 ← display_pass first_pass h h 0;
  l2 ← display_pass second_pass h h 0;
  Ok (Text "***** Showing the connections that were established" :: l1 ++ l2).

Definition main (fuel : nat) (ids : list (string * (float * float)))
    (cmds : list command) : outcome (list line) :=
  '(h, o) ← run fuel (new_chips ids) cmds;
  l ← show_connections h;
  Ok (o ++ l).

(** ** Vocabulary for the statements *)

(** Member [member] of the chip that [p] points to. *)
Definition field {A : Type} (member : Chip.t -> A) (h : Chip.heap) (p : ptr)
    : option A :=
  member <$> h !! p.

(** [p] is the first (resp. last) chip, in creation order, whose id is
    [chipId]. *)
Definition first_with_id (h : Chip.heap) (chipId : string) (p : ptr) : Prop :=
  field Chip.id h p = Some chipId ∧
  ∀ j, j < p → field Chip.id h j ≠ Some chipId.

Definition last_with_id (h : Chip.heap) (chipId : string) (p : ptr) : Prop :=
  field Chip.id h p = Some chipId ∧
  ∀ j, p < j → field Chip.id h j ≠ Some chipId.

Definition no_chip_with_id (h : Chip.heap) (chipId : string) : Prop :=
  ∀ j, field Chip.id h j ≠ Some chipId.

(** The two registries hold the same chips with the same wiring and input
    values; only [result] members may differ. *)
Definition same_shape (h h' : Chip.heap) : Prop :=
  ∀ q, Chip.with_result 0 <$> h !! q = Chip.with_result 0 <$> h' !! q.

(** [compute] on chip [q] calls [compute] on chip [q1]. *)
Definition edge (h : Chip.heap) (q q1 : ptr) : Prop :=
  ∃ c, h !! q = Some c ∧ Chip.chipType c ≠ "I"%char ∧
       (Chip.input1 c = Some q1 ∨ Chip.input2 c = Some q1).

(** The arithmetic function of an Add, Subtract or Multiply chip. *)
Definition arithmetic (ty : ascii) : option (float -> float -> float) :=
  if Ascii.eqb ty "A" then Some PrimFloat.add
  else if Ascii.eqb ty "S" then Some PrimFloat.sub
  else if Ascii.eqb ty "M" then Some PrimFloat.mul
  else None.

(** The kinds that take two inputs, and those that take one. *)
Definition two_input_kind (ty : ascii) : Prop :=
  ty = "A"%char ∨ ty = "S"%char ∨ ty = "M"%char ∨ ty = "D"%char.

Definition one_input_kind (ty : ascii) : Prop :=
  ty = "N"%char ∨ ty = "O"%char.

(** [cmd] is not a Connect command with output id [outputId]. *)
Definition not_connect_to (outputId : string) (cmd : command) : Prop :=
  match cmd with
  | Connect _ outputId' => outputId' ≠ outputId
  | _ => True
  end.

(** What one loop variable of [find_both] ends up holding. *)
Fixpoint find_last (cs : list Chip.t) (j : nat) (chipId : string)
    (found : option ptr) : option ptr :=
  match cs with
  | [] => found
  | c :: cs' =>
    find_last cs' (S j) chipId
      (if String.eqb (Chip.id c) chipId then Some j else found)
  end.

(** The registry after the chips [ids] are created and [cmds] have run
    (commands that need no evaluation of the circuit). *)
Definition wired (ids : list (string * (float * float))) (cmds : list command)
    : Chip.heap :=
  match run 0 (new_chips ids) cmds with
  | Ok (h, _) => h
  | _ => []
  end.

(** Three small circuits; the second and third start with 5 in every
    [result] member. *)
Definition adder_circuit : Chip.heap :=
  Eval vm_compute in
    wired [("I1", (0, 0)); ("I2", (0, 0)); ("A1", (0, 0)); ("O1", (0, 0))]%float
      [Connect "I1" "A1"; Connect "I2" "A1"; Connect "A1" "O1";
       SetInput "I1" 3%float; SetInput "I2" 4%float].

Definition divider_circuit : Chip.heap :=
  Eval vm_compute in
    wired [("I1", (0, 5)); ("I2", (0, 5)); ("D1", (0, 5)); ("O1", (0, 5))]%float
      [Connect "I1" "D1"; Connect "I2" "D1"; Connect "D1" "O1";
       SetInput "I1" 6%float; SetInput "I2" 0%float].

Definition negator_circuit : Chip.heap :=
  Eval vm_compute in
    wired [("I1", (0, 5)); ("N1", (0, 5)); ("O1", (0, 5))]%float
      [Connect "I1" "N1"; Connect "N1" "O1"; SetInput "I1" 0%float].

(** A Negate chip wired to itself, by the command [A N1 N1]. *)
Definition loop_circuit : Chip.heap :=
  Eval vm_compute in wired [("N1", (0, 5))]%float [Connect "N1" "N1"].

(** The text of the diagnostic that [compute] prints for a Divide chip. *)
Definition division_by_zero_line (c : Chip.t) : line :=
  Text ("Error: Division by zero in chip " +:+ Chip.id c).

(** The kinds whose operation reads [input1->getResult()], resp.
    [input2->getResult()]. *)
Definition reads_input1 (ty : ascii) : Prop := two_input_kind ty ∨ ty = "N"%char.
Definition reads_input2 (ty : ascii) : Prop := two_input_kind ty.

(** Every non-Input chip has the inputs its operation reads, and its input
    slots point to chips of the registry. *)
Definition fully_wired (h : Chip.heap) : Prop :=
  ∀ q c, h !! q = Some c → Chip.chipType c ≠ "I"%char →
    (∀ a, Chip.input1 c = Some a ∨ Chip.input2 c = Some a → is_Some (h !! a)) ∧
    (reads_input1 (Chip.chipType c) → is_Some (Chip.input1 c)) ∧
    (reads_input2 (Chip.chipType c) → is_Some (Chip.input2 c)).

(** Chip [c] lacks an input that its operation reads whatever the values
    are (a Divide chip reads input1 only when the divisor is nonzero). *)
Definition missing_input (c : Chip.t) : Prop :=
  (reads_input2 (Chip.chipType c) ∧ Chip.input2 c = None) ∨
  (reads_input1 (Chip.chipType c) ∧ Chip.chipType c ≠ "D"%char ∧ Chip.input1 c = None).

(** An Add chip with one Connect only. *)
Definition half_wired_circuit : Chip.heap :=
  Eval vm_compute in
    wired [("I1", (0, 5)); ("A1", (0, 5))]%float [Connect "I1" "A1"; SetInput "I1" 3%float].

(** The kind and the three pointers of a chip. *)
Definition links (c : Chip.t) : ascii * option ptr * option ptr * option ptr :=
  (Chip.chipType c, Chip.input1 c, Chip.input2 c, Chip.output c).

(** Every pointer of every chip points to a chip of the registry; only
    chips of the six kinds that take inputs have input1 set; only chips of
    the four two-input kinds have input2 set, and then input1 is set too. *)
Definition wiring_ok (h : Chip.heap) : Prop :=
  ∀ q c, h !! q = Some c →
    (∀ a, Chip.input1 c = Some a ∨ Chip.input2 c = Some a ∨ Chip.output c = Some a →
          is_Some (h !! a)) ∧
    (is_Some (Chip.input1 c) →
       one_input_kind (Chip.chipType c) ∨ two_input_kind (Chip.chipType c)) ∧
    (is_Some (Chip.input2 c) →
       two_input_kind (Chip.chipType c) ∧ is_Some (Chip.input1 c)).

(** Every pointer of every chip (input slots and output link) is null or
    points to a chip of the registry. *)
Definition no_dangling (h : Chip.heap) : Prop :=
  ∀ q c, h !! q = Some c →
    ∀ a, Chip.input1 c = Some a ∨ Chip.input2 c = Some a ∨ Chip.output c = Some a →
         is_Some (h !! a).

(** The input links as the members hold them, whatever the kind of the
    chip: [edge] is the part of this relation that [compute] follows. *)
Definition input_link (h : Chip.heap) (q q1 : ptr) : Prop :=
  ∃ c, h !! q = Some c ∧ (Chip.input1 c = Some q1 ∨ Chip.input2 c = Some q1).

(** No chip of Input kind has an input slot set. *)
Definition Input_chips_have_no_inputs (h : Chip.heap) : Prop :=
  ∀ q c, h !! q = Some c → Chip.chipType c = "I"%char →
         Chip.input1 c = None ∧ Chip.input2 c = None.

(** The chips of [adder_circuit] as step 3 reads them. *)
Definition adder_ids : list (string * (float * float)) :=
  [("I1", (0, 0)); ("I2", (0, 0)); ("A1", (0, 0)); ("O1", (0, 0))]%float.

(** Chip [c] is shown by the first display loop through the branch of
    [display] that reads [output->getId()] without a null test. *)
Definition needs_output (c : Chip.t) : Prop :=
  first_pass c = true ∧ Chip.chipType c ≠ "I"%char ∧ Chip.chipType c ≠ "O"%char.

(** The value that [compute] leaves in chip [p]'s [result], as a function of
    the registry [h] before the call: Input chips give their input value,
    the arithmetic kinds combine the values of their inputs, and a chip whose
    operation writes nothing (Negate on a zero input, Output, unknown kinds)
    keeps the result it has in [h].  [None] when the nesting exceeds [fuel]
    or an input that the operation reads is missing. *)
Fixpoint value (fuel : nat) (h : Chip.heap) (p : ptr) : option float :=
  match fuel with
  | O => None
  | S fuel' =>
    c ← h !! p;
    if Ascii.eqb (Chip.chipType c) "I" then Some (Chip.inputValue c)
    else if Ascii.eqb (Chip.chipType c) "A" then
      a ← Chip.input1 c; b ← Chip.input2 c;
      va ← value fuel' h a; vb ← value fuel' h b; Some (va + vb)%float
    else if Ascii.eqb (Chip.chipType c) "S" then
      a ← Chip.input1 c; b ← Chip.input2 c;
      va ← value fuel' h a; vb ← value fuel' h b; Some (va - vb)%float
    else if Ascii.eqb (Chip.chipType c) "M" then
      a ← Chip.input1 c; b ← Chip.input2 c;
      va ← value fuel' h a; vb ← value fuel' h b; Some (va * vb)%float
    else if Ascii.eqb (Chip.chipType c) "D" then
      b ← Chip.input2 c; vb ← value fuel' h b;
      if nonzero vb then
        a ← Chip.input1 c; va ← value fuel' h a; Some (va / vb)%float
      else Some 0%float
    else if Ascii.eqb (Chip.chipType c) "N" then
      a ← Chip.input1 c; va ← value fuel' h a;
      if nonzero va then Some (- va)%float else Some (Chip.result c)
    else Some (Chip.result c)
  end.

(** In [g], chip [q] is the chip of [h] with [value fuel h q] as result. *)
Definition has_value (fuel : nat) (h g : Chip.heap) (q : ptr) : Prop :=
  ∃ v c, value fuel h q = Some v ∧ h !! q = Some c ∧
         g !! q = Some (Chip.with_result v c).

(** [g] is [h] with some chips already holding their value. *)
Definition partly_evaluated (h g : Chip.heap) : Prop :=
  ∀ q, g !! q = h !! q ∨ ∃ fuel, has_value fuel h g q.

(** What the operation of chip [c] does, given what reading the results of
    its two inputs gives: the value to store in [result], if any, and the
    lines to print. *)
Definition op_effect (c : Chip.t) (r1 r2 : outcome float)
    : outcome (option float * list line) :=
  if Ascii.eqb (Chip.chipType c) "A" then
    a ← r1; b ← r2; Ok (Some (a + b)%float, [])
  else if Ascii.eqb (Chip.chipType c) "S" then
    a ← r1; b ← r2; Ok (Some (a - b)%float, [])
  else if Ascii.eqb (Chip.chipType c) "M" then
    a ← r1; b ← r2; Ok (Some (a * b)%float, [])
  else if Ascii.eqb (Chip.chipType c) "D" then
    b ← r2;
    if nonzero b then a ← r1; Ok (Some (a / b)%float, [])
    else Ok (Some 0%float, [division_by_zero_line c])
  else if Ascii.eqb (Chip.chipType c) "N" then
    a ← r1;
    if nonzero a then Ok (Some (- a)%float, []) else Ok (None, [])
  else Ok (None, []).

(** Case analysis on the first action of a sequence that returned. *)
Ltac inv_bind H :=
  match type of H with
  | (?m ≫= _) = Ok _ =>
    let E := fresh "E" in
    destruct m eqn:E; simpl in H; [|discriminate H|discriminate H]
  end.

(** Decides [first_with_id] and [last_with_id] in a concrete registry of at
    most five chips. *)
Ltac resolve_id :=
  split; [reflexivity|];
  let j := fresh "j" in
  let Hj := fresh "Hj" in
  intros j Hj;
  do 5 (destruct j as [|j]; [first [lia | done]|]);
  first [lia | done].

(** * Properties *)

(** The two scenarios of the specification. *)
Example scenario_add :
  main 5 [("I1", (0, 0)); ("I2", (0, 0)); ("A1", (0, 0)); ("O1", (0, 0))]%float
         [Connect "I1" "A1"; Connect "I2" "A1"; Connect "A1" "O1";
          SetInput "I1" 3%float; SetInput "I2" 4%float; QueryOutput "O1"]
  = Ok [computation_starts; OutputValue 7%float;
        Text "***** Showing the connections that were established";
        Text "I1, Output = A1"; Text "I2, Output = A1";
        Text "A1, Input 1 = I1, Input 2 = I2, Output = O1";
        Text "O1, Input 1 = A1"; Text "O1, Input 1 = A1"].
Proof. vm_compute. reflexivity. Qed.

Example scenario_divide_by_zero :
  main 5 [("I1", (1, 1)); ("I2", (1, 1)); ("D1", (1, 1)); ("O1", (1, 1))]%float
         [Connect "I1" "D1"; Connect "I2" "D1"; Connect "D1" "O1";
          SetInput "I2" 0%float; QueryOutput "O1"]
  = Ok [computation_starts; Text "Error: Division by zero in chip D1";
        OutputValue 0%float;
        Text "***** Showing the connections that were established";
        Text "I1, Output = D1"; Text "I2, Output = D1";
        Text "D1, Input 1 = I1, Input 2 = I2, Output = O1";
        Text "O1, Input 1 = D1"; Text "O1, Input 1 = D1"].
Proof. vm_compute. reflexivity. Qed.

(** ** Lookup loops *)

Lemma find_both_find_last cs j inputId outputId ic oc :
  find_both cs j inputId outputId ic oc
  = (find_last cs j inputId ic, find_last cs j outputId oc).
Proof.
  revert j ic oc. induction cs as [|c cs IH]; intros j ic oc; simpl; [done|].
  apply IH.
Qed.

Lemma find_last_none cs j chipId found :
  no_chip_with_id cs chipId → find_last cs j chipId found = found.
Proof.
  revert j found. induction cs as [|c cs IH]; intros j found Hno; simpl; [done|].
  destruct (String.eqb_spec (Chip.id c) chipId) as [Heq|Hne].
  - destruct (Hno 0). by rewrite <- Heq.
  - apply IH. intros k. apply (Hno (S k)).
Qed.

Lemma find_last_shift cs j chipId found k :
  last_with_id cs chipId k → find_last cs j chipId found = Some (j + k).
Proof.
  revert j found k. induction cs as [|c cs IH]; intros j found k [Hk Hlast].
  - by destruct k.
  - simpl. destruct k as [|k].
    + injection Hk as ->. rewrite String.eqb_refl.
      rewrite find_last_none; [f_equal; lia|].
      intros i. apply (Hlast (S i)). lia.
    + rewrite (IH (S j) _ k); [f_equal; lia|]. split; [done|].
      intros i Hlt. apply (Hlast (S i)). lia.
Qed.

Lemma find_last_resolves h chipId found p :
  last_with_id h chipId p → find_last h 0 chipId found = Some p.
Proof. intros H. by rewrite (find_last_shift _ _ _ _ p). Qed.

Lemma find_first_none cs j chipId :
  no_chip_with_id cs chipId → find_first cs j chipId = None.
Proof.
  revert j. induction cs as [|c cs IH]; intros j Hno; simpl; [done|].
  destruct (String.eqb_spec (Chip.id c) chipId) as [Heq|Hne].
  - destruct (Hno 0). by rewrite <- Heq.
  - apply IH. intros k. apply (Hno (S k)).
Qed.

Lemma find_first_shift cs j chipId k :
  first_with_id cs chipId k → find_first cs j chipId = Some (j + k).
Proof.
  revert j k. induction cs as [|c cs IH]; intros j k [Hk Hfirst].
  - by destruct k.
  - simpl. destruct k as [|k].
    + injection Hk as ->. rewrite String.eqb_refl. f_equal; lia.
    + destruct (String.eqb_spec (Chip.id c) chipId) as [Heq|Hne].
      * destruct (Hfirst 0); [lia|]. by rewrite <- Heq.
      * rewrite (IH (S j) k); [f_equal; lia|]. split; [done|].
        intros i Hlt. apply (Hfirst (S i)). lia.
Qed.

Lemma find_first_resolves h chipId p :
  first_with_id h chipId p → find_first h 0 chipId = Some p.
Proof. intros H. by rewrite (find_first_shift _ _ _ p). Qed.

(** ** Wiring operations *)

Lemma setInput1_spec (h : Chip.heap) (a b : ptr) (ca cb : Chip.t) :
  h !! a = Some ca → h !! b = Some cb →
  ∃ h1 ca1 cb1,
    Chip.setInput1 h a (Some b) = Ok h1 ∧
    h1 !! a = Some ca1 ∧ h1 !! b = Some cb1 ∧
    Chip.input1 ca1 = Some b ∧ Chip.input2 ca1 = Chip.input2 ca ∧
    Chip.output cb1 = Some a ∧
    (∀ p, p ≠ a → p ≠ b → h1 !! p = h !! p).
Proof.
  intros Ha Hb. unfold Chip.setInput1, Chip.setOutput.
  destruct (decide (a = b)) as [->|Hne].
  - eexists _, _, _. split; [done|].
    assert (Hl : alter (Chip.with_output (Some b)) b
                   (alter (Chip.with_input1 (Some b)) b h) !! b
                 = Some (Chip.with_output (Some b) (Chip.with_input1 (Some b) ca))).
    { by rewrite !list_lookup_alter_eq, Ha. }
    split_and!; try exact Hl; try done.
    intros p Hp _. by rewrite !list_lookup_alter_ne.
  - eexists _, (Chip.with_input1 (Some b) ca), (Chip.with_output (Some a) cb).
    split_and!; try done.
    + by rewrite list_lookup_alter_ne, list_lookup_alter_eq, Ha.
    + by rewrite list_lookup_alter_eq, list_lookup_alter_ne, Hb.
    + intros p Hpa Hpb. by rewrite !list_lookup_alter_ne.
Qed.

Lemma setInput2_spec (h : Chip.heap) (a b : ptr) (ca cb : Chip.t) :
  h !! a = Some ca → h !! b = Some cb →
  ∃ h1 ca1 cb1,
    Chip.setInput2 h a (Some b) = Ok h1 ∧
    h1 !! a = Some ca1 ∧ h1 !! b = Some cb1 ∧
    Chip.input2 ca1 = Some b ∧ Chip.input1 ca1 = Chip.input1 ca ∧
    Chip.output cb1 = Some a ∧
    (∀ p, p ≠ a → p ≠ b → h1 !! p = h !! p).
Proof.
  intros Ha Hb. unfold Chip.setInput2, Chip.setOutput.
  destruct (decide (a = b)) as [->|Hne].
  - eexists _, _, _. split; [done|].
    assert (Hl : alter (Chip.with_output (Some b)) b
                   (alter (Chip.with_input2 (Some b)) b h) !! b
                 = Some (Chip.with_output (Some b) (Chip.with_input2 (Some b) ca))).
    { by rewrite !list_lookup_alter_eq, Ha. }
    split_and!; try exact Hl; try done.
    intros p Hp _. by rewrite !list_lookup_alter_ne.
  - eexists _, (Chip.with_input2 (Some b) ca), (Chip.with_output (Some a) cb).
    split_and!; try done.
    + by rewrite list_lookup_alter_ne, list_lookup_alter_eq, Ha.
    + by rewrite list_lookup_alter_eq, list_lookup_alter_ne, Hb.
    + intros p Hpa Hpb. by rewrite !list_lookup_alter_ne.
Qed.

Lemma setInput1_valid (h h1 : Chip.heap) (a b p : ptr) :
  Chip.setInput1 h a (Some b) = Ok h1 → is_Some (h !! p) → is_Some (h1 !! p).
Proof.
  unfold Chip.setInput1, Chip.setOutput. intros [= <-] Hp.
  apply lookup_lt_is_Some. rewrite !length_alter. by apply lookup_lt_is_Some.
Qed.

Lemma setInput2_valid (h h1 : Chip.heap) (a b p : ptr) :
  Chip.setInput2 h a (Some b) = Ok h1 → is_Some (h !! p) → is_Some (h1 !! p).
Proof.
  unfold Chip.setInput2, Chip.setOutput. intros [= <-] Hp.
  apply lookup_lt_is_Some. rewrite !length_alter. by apply lookup_lt_is_Some.
Qed.

(** C7: for chips [a] and [b] of the registry, [a.setInput1(b)] (resp.
    [a.setInput2(b)]) succeeds, leaves [b] in [a]'s input1 (resp. input2)
    slot and [a] in [b]'s output link, and touches no third chip.  Nothing
    is assumed about the previous content of the slot or of the link, so a
    later call overwrites: after [a.setInput1(b)], a further
    [a.setInput1(b')] leaves [b'] in the slot, and a further
    [a'.setInput1(b)] leaves [a'] in [b]'s output link (likewise for
    [setInput2]). *)
Theorem setInput_binds_slot_and_output (h : Chip.heap) (a b : ptr) :
  is_Some (h !! a) → is_Some (h !! b) →
  (∃ h1, Chip.setInput1 h a (Some b) = Ok h1 ∧
         field Chip.input1 h1 a = Some (Some b) ∧
         field Chip.output h1 b = Some (Some a) ∧
         (∀ p, p ≠ a → p ≠ b → h1 !! p = h !! p) ∧
         ∀ a' b', is_Some (h !! a') → is_Some (h !! b') →
           (∃ h2, Chip.setInput1 h1 a (Some b') = Ok h2 ∧
                  field Chip.input1 h2 a = Some (Some b')) ∧
           (∃ h3, Chip.setInput1 h1 a' (Some b) = Ok h3 ∧
                  field Chip.output h3 b = Some (Some a'))) ∧
  (∃ h1, Chip.setInput2 h a (Some b) = Ok h1 ∧
         field Chip.input2 h1 a = Some (Some b) ∧
         field Chip.output h1 b = Some (Some a) ∧
         (∀ p, p ≠ a → p ≠ b → h1 !! p = h !! p) ∧
         ∀ a' b', is_Some (h !! a') → is_Some (h !! b') →
           (∃ h2, Chip.setInput2 h1 a (Some b') = Ok h2 ∧
                  field Chip.input2 h2 a = Some (Some b')) ∧
           (∃ h3, Chip.setInput2 h1 a' (Some b) = Ok h3 ∧
                  field Chip.output h3 b = Some (Some a'))).
Proof.
  intros [ca Ha] [cb Hb]. split.
  - destruct (setInput1_spec h a b ca cb Ha Hb)
      as (h1 & ca1 & cb1 & Hset & Ha1 & Hb1 & Hin & _ & Hout & Hframe).
    exists h1. unfold field. rewrite Ha1, Hb1. simpl. rewrite Hin, Hout.
    split_and!; try done.
    intros a' b' Ha' Hb'.
    destruct (setInput1_valid _ _ _ _ a' Hset Ha') as [ca1' Ha1'].
    destruct (setInput1_valid _ _ _ _ b' Hset Hb') as [cb1' Hb1'].
    split.
    + destruct (setInput1_spec h1 a b' _ _ Ha1 Hb1')
        as (h2 & ca2 & cb2 & Hset2 & Ha2 & _ & Hin2 & _).
      exists h2. by rewrite Ha2; simpl; rewrite Hin2.
    + destruct (setInput1_spec h1 a' b _ _ Ha1' Hb1)
        as (h3 & ca3 & cb3 & Hset3 & _ & Hb3 & _ & _ & Hout3 & _).
      exists h3. by rewrite Hb3; simpl; rewrite Hout3.
  - destruct (setInput2_spec h a b ca cb Ha Hb)
      as (h1 & ca1 & cb1 & Hset & Ha1 & Hb1 & Hin & _ & Hout & Hframe).
    exists h1. unfold field. rewrite Ha1, Hb1. simpl. rewrite Hin, Hout.
    split_and!; try done.
    intros a' b' Ha' Hb'.
    destruct (setInput2_valid _ _ _ _ a' Hset Ha') as [ca1' Ha1'].
    destruct (setInput2_valid _ _ _ _ b' Hset Hb') as [cb1' Hb1'].
    split.
    + destruct (setInput2_spec h1 a b' _ _ Ha1 Hb1')
        as (h2 & ca2 & cb2 & Hset2 & Ha2 & _ & Hin2 & _).
      exists h2. by rewrite Ha2; simpl; rewrite Hin2.
    + destruct (setInput2_spec h1 a' b _ _ Ha1' Hb1)
        as (h3 & ca3 & cb3 & Hset3 & _ & Hb3 & _ & _ & Hout3 & _).
      exists h3. by rewrite Hb3; simpl; rewrite Hout3.
Qed.

Lemma setInput_binds_slot_and_output_witness :
  (∃ h1, Chip.setInput1 adder_circuit 3 (Some 0) = Ok h1 ∧
         field Chip.input1 h1 3 = Some (Some 0) ∧
         field Chip.output h1 0 = Some (Some 3)) ∧
  (∃ h1, Chip.setInput2 adder_circuit 3 (Some 0) = Ok h1 ∧
         field Chip.input2 h1 3 = Some (Some 0) ∧
         field Chip.output h1 0 = Some (Some 3)).
Proof.
  destruct (setInput_binds_slot_and_output adder_circuit 3 0)
    as [(h1 & Hset1 & Hin1 & Hout1 & _) (h2 & Hset2 & Hin2 & Hout2 & _)].
  - eexists. reflexivity.
  - eexists. reflexivity.
  - split; [by exists h1|by exists h2].
Defined.

(** ** Commands that do not evaluate the circuit *)

(** C8: a Connect command whose output id resolves to a chip of Input kind
    runs no wiring branch: the command succeeds, prints nothing and leaves
    the whole registry as it was (whatever the input id is, known or not). *)
Theorem connect_to_Input_target_changes_nothing
    (fuel : nat) (h : Chip.heap) (inputId outputId : string) (out : ptr) :
  last_with_id h outputId out →
  field Chip.chipType h out = Some "I"%char →
  step fuel h (Connect inputId outputId) = Ok (h, []).
Proof.
  intros Hlast Hty. unfold step, connect.
  rewrite find_both_find_last, (find_last_resolves _ _ _ out Hlast).
  unfold field in Hty. unfold Chip.deref.
  destruct (h !! out) as [c|]; [|done]. injection Hty as Hty.
  simpl. unfold is_type. by rewrite Hty.
Qed.

Lemma connect_to_Input_target_changes_nothing_witness :
  step 0 (new_chips [("I1", (0, 0)); ("I2", (0, 0))]%float) (Connect "I1" "I2")
  = Ok (new_chips [("I1", (0, 0)); ("I2", (0, 0))]%float, []).
Proof.
  apply (connect_to_Input_target_changes_nothing 0 _ "I1" "I2" 1).
  - split; [reflexivity|]. intros [|[|j]] Hj; [lia|lia|by destruct j].
  - reflexivity.
Defined.

(** C9: a SetInput command whose id is carried by some chip writes the
    value into [inputValue] of the first such chip in creation order,
    whatever the kind of that chip, and changes nothing else: the chip's
    other members and all other chips stay as they were. *)
Theorem set_input_writes_first_match
    (fuel : nat) (h : Chip.heap) (chipId : string) (value : float)
    (p : ptr) (c : Chip.t) :
  first_with_id h chipId p → h !! p = Some c →
  ∃ h', step fuel h (SetInput chipId value) = Ok (h', []) ∧
        h' !! p = Some (Chip.with_inputValue value c) ∧
        ∀ q, q ≠ p → h' !! q = h !! q.
Proof.
  intros Hfirst Hp. unfold step, set_input.
  rewrite (find_first_resolves _ _ p Hfirst). eexists. split; [done|].
  unfold Chip.setInputValue. split.
  - by rewrite list_lookup_alter_eq, Hp.
  - intros q Hq. by rewrite list_lookup_alter_ne.
Qed.

Lemma set_input_writes_first_match_witness :
  ∃ h', step 0 (new_chips [("A1", (0, 0)); ("I1", (0, 0)); ("A1", (1, 1))]%float)
               (SetInput "A1" 5%float) = Ok (h', []) ∧
        h' !! 0 = Some (Chip.Make "A" "A1" None None None 5 0) ∧
        ∀ q, q ≠ 0 →
          h' !! q = new_chips [("A1", (0, 0)); ("I1", (0, 0)); ("A1", (1, 1))]%float !! q.
Proof.
  apply (set_input_writes_first_match 0 _ "A1" 5%float 0
           (Chip.Make "A" "A1" None None None 0 0)).
  - split; [reflexivity|]. intros j Hj. lia.
  - reflexivity.
Defined.

(** C10: a QueryOutput command whose id is carried by no chip prints the
    "Computation Starts " line and nothing else, and leaves every chip as it
    was.  The statement holds for every recursion budget, zero included, so
    no call of [compute] is involved. *)
Theorem query_output_unknown_id
    (fuel : nat) (h : Chip.heap) (outputChipId : string) :
  no_chip_with_id h outputChipId →
  step fuel h (QueryOutput outputChipId) = Ok (h, [Text "Computation Starts "]).
Proof.
  intros Hno. unfold step, query_output. by rewrite find_first_none.
Qed.

Lemma query_output_unknown_id_witness :
  step 0 (new_chips [("I1", (0, 0)); ("O1", (0, 0))]%float) (QueryOutput "O2")
  = Ok (new_chips [("I1", (0, 0)); ("O1", (0, 0))]%float, [Text "Computation Starts "]).
Proof.
  apply query_output_unknown_id.
  intros [|[|j]]; done.
Defined.

(** ** What [compute] touches *)

Lemma bind_Ok {A B : Type} (m : outcome A) (f : A -> outcome B) (b : B) :
  m ≫= f = Ok b → ∃ a, m = Ok a ∧ f a = Ok b.
Proof. destruct m; simpl; intros H; [eauto|done|done]. Qed.

Lemma deref_Ok (h : Chip.heap) (p : ptr) (c : Chip.t) :
  Chip.deref h p = Ok c ↔ h !! p = Some c.
Proof. unfold Chip.deref. destruct (h !! p); naive_solver. Qed.

Lemma same_shape_refl h : same_shape h h.
Proof. done. Qed.

Lemma same_shape_sym h h' : same_shape h h' → same_shape h' h.
Proof. intros H q. by rewrite H. Qed.

Lemma same_shape_trans h1 h2 h3 :
  same_shape h1 h2 → same_shape h2 h3 → same_shape h1 h3.
Proof. intros H1 H2 q. by rewrite H1, H2. Qed.

Lemma same_shape_field {A : Type} (member : Chip.t -> A) h h' q :
  (∀ c v, member (Chip.with_result v c) = member c) →
  same_shape h h' → field member h' q = field member h q.
Proof.
  intros Hm Hs. specialize (Hs q). unfold field.
  destruct (h !! q) as [c|], (h' !! q) as [c'|]; try done.
  simpl in *. f_equal.
  rewrite <- (Hm c 0%float), <- (Hm c' 0%float). congruence.
Qed.

Lemma same_shape_lookup h h' q c :
  same_shape h h' → h !! q = Some c →
  ∃ c', h' !! q = Some c' ∧ c' = Chip.with_result (Chip.result c') c.
Proof.
  intros Hs Hq. specialize (Hs q). rewrite Hq in Hs.
  destruct (h' !! q) as [c'|]; [|done].
  exists c'. split; [done|]. destruct c, c'. by simplify_eq/=.
Qed.

Lemma setResult_shape h p v : same_shape h (Chip.setResult h p v).
Proof.
  intros q. unfold Chip.setResult.
  destruct (decide (p = q)) as [->|Hne].
  - rewrite list_lookup_alter_eq. by destruct (h !! q).
  - by rewrite list_lookup_alter_ne.
Qed.

Lemma operate_cases h p h' o :
  Chip.operate h p = Ok (h', o) → h' = h ∨ ∃ v, h' = Chip.setResult h p v.
Proof.
  unfold Chip.operate. intros H. inv_bind H.
  repeat (case_match || inv_bind H); simplify_eq/=; eauto.
Qed.

Lemma operate_shape h p h' o :
  Chip.operate h p = Ok (h', o) → same_shape h h'.
Proof.
  intros [->|[v ->]]%operate_cases; [done|apply setResult_shape].
Qed.

Lemma operate_frame h p h' o q :
  Chip.operate h p = Ok (h', o) → q ≠ p → h' !! q = h !! q.
Proof.
  intros [->|[v ->]]%operate_cases Hq; [done|].
  unfold Chip.setResult. by rewrite list_lookup_alter_ne.
Qed.

Lemma compute_inputs_inv rec h p h2 o :
  Chip.compute_inputs rec h p = Ok (h2, o) →
  ∃ c h1 o1 c1 o2,
    h !! p = Some c ∧
    match Chip.input1 c with Some a => rec h a | None => Ok (h, []) end = Ok (h1, o1) ∧
    h1 !! p = Some c1 ∧
    match Chip.input2 c1 with Some b => rec h1 b | None => Ok (h1, []) end = Ok (h2, o2) ∧
    o = o1 ++ o2.
Proof.
  unfold Chip.compute_inputs. intros H.
  apply bind_Ok in H as (c & Hc%deref_Ok & H).
  apply bind_Ok in H as ([h1 o1] & H1 & H).
  apply bind_Ok in H as (c1 & Hc1%deref_Ok & H).
  apply bind_Ok in H as ([h2' o2] & H2 & H).
  simplify_eq/=. by exists c, h1, o1, c1, o2.
Qed.

Lemma compute_S_inv fuel h p h' o :
  Chip.compute (S fuel) h p = Ok (h', o) →
  ∃ c, h !! p = Some c ∧
    ((Chip.chipType c = "I"%char ∧ h' = Chip.setResult h p (Chip.inputValue c) ∧ o = [])
     ∨ (Chip.chipType c ≠ "I"%char ∧
        ∃ h2 o2 o3, Chip.compute_inputs (Chip.compute fuel) h p = Ok (h2, o2) ∧
                    Chip.operate h2 p = Ok (h', o3) ∧ o = o2 ++ o3)).
Proof.
  simpl. intros H. apply bind_Ok in H as (c & Hc%deref_Ok & H).
  exists c. split; [done|].
  destruct (Ascii.eqb_spec (Chip.chipType c) "I") as [Hty|Hty].
  - left. by simplify_eq/=.
  - right. split; [done|].
    apply bind_Ok in H as ([h2 o2] & H2 & H).
    apply bind_Ok in H as ([h3 o3] & H3 & H).
    simplify_eq/=. by exists h2, o2, o3.
Qed.

Lemma compute_shape fuel h p h' o :
  Chip.compute fuel h p = Ok (h', o) → same_shape h h'.
Proof.
  revert h p h' o. induction fuel as [|fuel IH]; intros h p h' o H; [done|].
  apply compute_S_inv in H as (c & Hc & [(_ & -> & _)|(_ & h2 & o2 & o3 & Hin & Hop & _)]).
  - apply setResult_shape.
  - apply compute_inputs_inv in Hin as (c0 & h1 & o1 & c1 & o2' & _ & H1 & _ & H2 & _).
    apply same_shape_trans with h2; [|by eapply operate_shape].
    apply same_shape_trans with h1.
    + destruct (Chip.input1 c0); [by eapply IH|by simplify_eq].
    + destruct (Chip.input2 c1); [by eapply IH|by simplify_eq].
Qed.

Lemma same_shape_edge h h' q q1 : same_shape h h' → edge h q q1 → edge h' q q1.
Proof.
  intros Hs (c & Hc & Hty & Hin).
  destruct (same_shape_lookup _ _ _ _ Hs Hc) as (c' & Hc' & Heq).
  exists c'. split; [done|]. rewrite Heq. done.
Qed.

Lemma same_shape_tc h h' q p :
  same_shape h h' → tc (edge h) q p → tc (edge h') q p.
Proof.
  intros Hs. apply (tc_congruence (λ x, x)). intros ??. by apply same_shape_edge.
Qed.

Lemma same_shape_rtc h h' q p :
  same_shape h h' → rtc (edge h) q p → rtc (edge h') q p.
Proof.
  intros Hs. apply (rtc_congruence (λ x, x)). intros ??. by apply same_shape_edge.
Qed.

(** A successful [compute] on [q] contains a successful [compute], with a
    smaller budget, on each chip that [q] calls. *)
Lemma compute_edge fuel h q q1 r :
  Chip.compute (S fuel) h q = Ok r → edge h q q1 →
  ∃ h0 r0, same_shape h h0 ∧ Chip.compute fuel h0 q1 = Ok r0.
Proof.
  destruct r as [h' o]. intros H (c & Hc & Hty & Hin).
  apply compute_S_inv in H as (c' & Hc' & H). rewrite Hc in Hc'. injection Hc' as <-.
  destruct H as [(Hty' & _)|(_ & h2 & o2 & o3 & H & _)]; [done|].
  apply compute_inputs_inv in H as (c0 & h1 & o1 & c1 & o2' & Hc0 & H1 & Hc1 & H2 & _).
  rewrite Hc in Hc0. injection Hc0 as <-.
  assert (Hs : same_shape h h1).
  { destruct (Chip.input1 c); [by eapply compute_shape|by simplify_eq]. }
  destruct Hin as [Hin|Hin].
  - rewrite Hin in H1. by exists h, (h1, o1).
  - destruct (same_shape_lookup _ _ _ _ Hs Hc) as (c1' & Hc1' & Heq).
    rewrite Hc1 in Hc1'. injection Hc1' as <-.
    assert (Hin2 : Chip.input2 c1 = Some q1) by (by rewrite Heq).
    rewrite Hin2 in H2. by exists h1, (h2, o2').
Qed.

Lemma compute_descent fuel h q p r :
  Chip.compute fuel h q = Ok r → tc (edge h) q p →
  ∃ fuel' h0 r0, fuel' < fuel ∧ same_shape h h0 ∧ Chip.compute fuel' h0 p = Ok r0.
Proof.
  revert h q r. induction fuel as [|fuel IH]; intros h q r H Htc; [done|].
  destruct Htc as [q p Hqp|q q1 p Hq Htc].
  - destruct (compute_edge _ _ _ _ _ H Hqp) as (h0 & r0 & Hs & H0).
    exists fuel, h0, r0. split_and!; [lia|done|done].
  - destruct (compute_edge _ _ _ _ _ H Hq) as (h0 & r0 & Hs & H0).
    destruct (IH h0 q1 r0 H0 (same_shape_tc _ _ _ _ Hs Htc))
      as (fuel' & h1 & r1 & Hlt & Hs1 & H1).
    exists fuel', h1, r1. split_and!; [lia| |done].
    by apply same_shape_trans with h0.
Qed.

(** A [compute] that returns did not go round a cycle of input links. *)
Lemma compute_acyclic fuel h q r :
  Chip.compute fuel h q = Ok r → ¬ tc (edge h) q q.
Proof.
  revert h r. induction (lt_wf fuel) as [fuel _ IH]. intros h r H Htc.
  destruct (compute_descent _ _ _ _ _ H Htc) as (fuel' & h0 & r0 & Hlt & Hs & H0).
  apply (IH fuel' Hlt h0 r0 H0). by apply same_shape_tc with h.
Qed.

(** [compute] on [q] leaves alone every chip that is not upstream of [q]. *)
Lemma compute_frame fuel h q h' o p :
  Chip.compute fuel h q = Ok (h', o) → ¬ rtc (edge h) q p → h' !! p = h !! p.
Proof.
  revert h q h' o. induction fuel as [|fuel IH]; intros h q h' o H Hnot; [done|].
  assert (Hpq : p ≠ q) by (intros ->; by apply Hnot).
  apply compute_S_inv in H as (c & Hc & [(_ & -> & _)|(Hty & h2 & o2 & o3 & H & Hop & _)]).
  { unfold Chip.setResult. by rewrite list_lookup_alter_ne. }
  apply compute_inputs_inv in H as (c0 & h1 & o1 & c1 & o2' & Hc0 & H1 & Hc1 & H2 & _).
  rewrite Hc in Hc0. injection Hc0 as <-.
  rewrite (operate_frame _ _ _ _ p Hop Hpq).
  assert (Hs : same_shape h h1).
  { destruct (Chip.input1 c); [by eapply compute_shape|by simplify_eq]. }
  assert (H1p : h1 !! p = h !! p).
  { destruct (Chip.input1 c) as [a|] eqn:Hin; [|by simplify_eq].
    apply (IH _ _ _ _ H1). intros Hrtc. apply Hnot.
    eapply rtc_l; [|done]. exists c. eauto. }
  rewrite <- H1p.
  destruct (Chip.input2 c1) as [b|] eqn:Hin; [|by simplify_eq].
  apply (IH _ _ _ _ H2). intros Hrtc. apply Hnot.
  apply (same_shape_rtc _ _ _ _ (same_shape_sym _ _ Hs)) in Hrtc.
  eapply rtc_l; [|done].
  destruct (same_shape_lookup _ _ _ _ Hs Hc) as (c1' & Hc1' & Heq).
  rewrite Hc1 in Hc1'. injection Hc1' as <-.
  exists c. split_and!; [done|done|]. right. rewrite <- Hin. by rewrite Heq.
Qed.

Lemma compute_inputs_frame fuel h q c h2 o p :
  h !! q = Some c → Chip.chipType c ≠ "I"%char →
  Chip.compute_inputs (Chip.compute fuel) h q = Ok (h2, o) →
  ¬ tc (edge h) q p → h2 !! p = h !! p.
Proof.
  intros Hc Hty H Hnot.
  apply compute_inputs_inv in H as (c0 & h1 & o1 & c1 & o2' & Hc0 & H1 & Hc1 & H2 & _).
  rewrite Hc in Hc0. injection Hc0 as <-.
  assert (Hs : same_shape h h1).
  { destruct (Chip.input1 c); [by eapply compute_shape|by simplify_eq]. }
  assert (H1p : h1 !! p = h !! p).
  { destruct (Chip.input1 c) as [a|] eqn:Hin; [|by simplify_eq].
    apply (compute_frame _ _ _ _ _ _ H1). intros Hrtc. apply Hnot.
    eapply tc_rtc_r; [|done]. apply tc_once. exists c. eauto. }
  rewrite <- H1p.
  destruct (Chip.input2 c1) as [b|] eqn:Hin; [|by simplify_eq].
  apply (compute_frame _ _ _ _ _ _ H2). intros Hrtc. apply Hnot.
  apply (same_shape_rtc _ _ _ _ (same_shape_sym _ _ Hs)) in Hrtc.
  eapply tc_rtc_r; [|done]. apply tc_once.
  destruct (same_shape_lookup _ _ _ _ Hs Hc) as (c1' & Hc1' & Heq).
  rewrite Hc1 in Hc1'. injection Hc1' as <-.
  exists c. split_and!; [done|done|]. right. rewrite <- Hin. by rewrite Heq.
Qed.

Lemma compute_inputs_shape fuel h q h2 o :
  Chip.compute_inputs (Chip.compute fuel) h q = Ok (h2, o) → same_shape h h2.
Proof.
  intros H.
  apply compute_inputs_inv in H as (c0 & h1 & o1 & c1 & o2' & _ & H1 & _ & H2 & _).
  apply same_shape_trans with h1.
  - destruct (Chip.input1 c0); [by eapply compute_shape|by simplify_eq].
  - destruct (Chip.input2 c1); [by eapply compute_shape|by simplify_eq].
Qed.

(** ** [compute], forwards *)

Lemma compute_S_eq fuel h p c :
  h !! p = Some c → Chip.chipType c ≠ "I"%char →
  Chip.compute (S fuel) h p
  = '(h2, o) ← Chip.compute_inputs (Chip.compute fuel) h p;
    '(h3, o3) ← Chip.operate h2 p;
    Ok (h3, o ++ o3).
Proof.
  intros Hc Hty. simpl. unfold Chip.deref at 1. rewrite Hc. simpl.
  by destruct (Ascii.eqb_spec (Chip.chipType c) "I").
Qed.

Lemma compute_Input fuel h p c :
  h !! p = Some c → Chip.chipType c = "I"%char →
  Chip.compute (S fuel) h p = Ok (Chip.setResult h p (Chip.inputValue c), []).
Proof.
  intros Hc Hty. simpl. unfold Chip.deref. rewrite Hc. simpl. by rewrite Hty.
Qed.

Lemma getResult_Some h a ca :
  h !! a = Some ca → Chip.getResult h (Some a) = Ok (Chip.result ca).
Proof. intros Ha. unfold Chip.getResult, Chip.arrow, Chip.deref. by rewrite Ha. Qed.

Lemma operate_Negate h p c a ca :
  h !! p = Some c → Chip.chipType c = "N"%char →
  Chip.input1 c = Some a → h !! a = Some ca →
  Chip.operate h p
  = if nonzero (Chip.result ca)
    then Ok (Chip.setResult h p (- Chip.result ca)%float, [])
    else Ok (h, []).
Proof.
  intros Hc Hty Hin Ha. unfold Chip.operate, Chip.deref. rewrite Hc. simpl.
  rewrite Hty, Hin. simpl. rewrite (getResult_Some _ _ _ Ha). simpl.
  by destruct (nonzero (Chip.result ca)).
Qed.

Lemma operate_Divide_zero h p c b cb :
  h !! p = Some c → Chip.chipType c = "D"%char →
  Chip.input2 c = Some b → h !! b = Some cb → nonzero (Chip.result cb) = false →
  Chip.operate h p
  = Ok (Chip.setResult h p 0%float,
        [Text ("Error: Division by zero in chip " +:+ Chip.id c)]).
Proof.
  intros Hc Hty Hin Hb Hz. unfold Chip.operate, Chip.deref. rewrite Hc. simpl.
  rewrite Hty, Hin. simpl. rewrite (getResult_Some _ _ _ Hb). simpl.
  by rewrite Hz.
Qed.

Lemma operate_Divide_nonzero h p c a b ca cb :
  h !! p = Some c → Chip.chipType c = "D"%char →
  Chip.input1 c = Some a → Chip.input2 c = Some b →
  h !! a = Some ca → h !! b = Some cb → nonzero (Chip.result cb) = true →
  Chip.operate h p
  = Ok (Chip.setResult h p (Chip.result ca / Chip.result cb)%float, []).
Proof.
  intros Hc Hty Hin1 Hin2 Ha Hb Hz. unfold Chip.operate, Chip.deref. rewrite Hc. simpl.
  rewrite Hty, Hin1, Hin2. simpl.
  rewrite (getResult_Some _ _ _ Hb). simpl. rewrite Hz.
  by rewrite (getResult_Some _ _ _ Ha).
Qed.

Lemma operate_arithmetic h p c op a b ca cb :
  h !! p = Some c → arithmetic (Chip.chipType c) = Some op →
  Chip.input1 c = Some a → Chip.input2 c = Some b →
  h !! a = Some ca → h !! b = Some cb →
  Chip.operate h p
  = Ok (Chip.setResult h p (op (Chip.result ca) (Chip.result cb)), []).
Proof.
  intros Hc Hop Hin1 Hin2 Ha Hb. unfold Chip.operate, Chip.deref. rewrite Hc. simpl.
  rewrite Hin1, Hin2, (getResult_Some _ _ _ Ha), (getResult_Some _ _ _ Hb). simpl.
  unfold arithmetic in Hop.
  repeat case_match; by simplify_eq.
Qed.

Lemma operate_Output h p c :
  h !! p = Some c → Chip.chipType c = "O"%char → Chip.operate h p = Ok (h, []).
Proof.
  intros Hc Hty. unfold Chip.operate, Chip.deref. rewrite Hc. simpl. by rewrite Hty.
Qed.

Lemma setResult_lookup h p v c :
  h !! p = Some c → Chip.setResult h p v !! p = Some (Chip.with_result v c).
Proof. intros Hc. unfold Chip.setResult. by rewrite list_lookup_alter_eq, Hc. Qed.

Lemma setResult_lookup_ne h p v q :
  q ≠ p → Chip.setResult h p v !! q = h !! q.
Proof. intros Hq. unfold Chip.setResult. by rewrite list_lookup_alter_ne. Qed.

(** A larger recursion budget does not change what [compute] returns. *)
Lemma compute_fuel_mono fuel fuel' h p r :
  Chip.compute fuel h p = Ok r → fuel ≤ fuel' → Chip.compute fuel' h p = Ok r.
Proof.
  revert fuel' h p r. induction fuel as [|fuel IH]; intros fuel' h p [h' o] H Hle; [done|].
  destruct fuel' as [|fuel']; [lia|].
  apply compute_S_inv in H as (c & Hc & [(Hty & -> & ->)|(Hty & h2 & o2 & o3 & Hin & Hop & ->)]).
  - by apply compute_Input.
  - rewrite (compute_S_eq _ _ _ _ Hc Hty).
    apply compute_inputs_inv in Hin as (c0 & h1 & o1 & c1 & o2' & Hc0 & H1 & Hc1 & H2 & ->).
    assert (H1' : match Chip.input1 c0 with
                  | Some a => Chip.compute fuel' h a
                  | None => Ok (h, [])
                  end = Ok (h1, o1)).
    { destruct (Chip.input1 c0); [apply (IH _ _ _ _ H1); lia|done]. }
    assert (H2' : match Chip.input2 c1 with
                  | Some b => Chip.compute fuel' h1 b
                  | None => Ok (h1, [])
                  end = Ok (h2, o2')).
    { destruct (Chip.input2 c1); [apply (IH _ _ _ _ H2); lia|done]. }
    unfold Chip.compute_inputs at 1.
    rewrite (proj2 (deref_Ok _ _ _) Hc0). simpl. rewrite H1'. simpl.
    rewrite (proj2 (deref_Ok _ _ _) Hc1). simpl. rewrite H2'. simpl.
    by rewrite Hop.
Qed.

Lemma same_shape_members h h' p c :
  same_shape h h' → h !! p = Some c →
  ∃ c', h' !! p = Some c' ∧
        Chip.chipType c' = Chip.chipType c ∧ Chip.id c' = Chip.id c ∧
        Chip.input1 c' = Chip.input1 c ∧ Chip.input2 c' = Chip.input2 c ∧
        Chip.output c' = Chip.output c ∧ Chip.inputValue c' = Chip.inputValue c.
Proof.
  intros Hs Hc. destruct (same_shape_lookup _ _ _ _ Hs Hc) as (c' & Hc' & Heq).
  exists c'. split; [done|]. by rewrite Heq.
Qed.

Lemma field_setResult h p v :
  is_Some (h !! p) → field Chip.result (Chip.setResult h p v) p = Some v.
Proof. intros [c Hc]. unfold field. by rewrite (setResult_lookup _ _ _ c). Qed.

(** ** Divide and Negate *)

(** C2: take a Divide chip [p] whose inputs have been computed (leaving the
    registry [h2] and the lines [o]) and whose input2 is chip [b].  If [b]'s
    result compares equal to 0, [compute] returns normally, with result 0 in
    [p] and with exactly one line added after [o], the division-by-zero
    diagnostic carrying [p]'s id (input1 is not even read).  Otherwise, with
    input1 chip [a], [compute] returns with [a]'s result divided by [b]'s
    in [p] and adds no line. *)
Theorem divide_by_zero_yields_zero_and_one_diagnostic
    (fuel : nat) (h h2 : Chip.heap) (o : list line) (p b : ptr) (c cb : Chip.t) :
  h !! p = Some c → Chip.chipType c = "D"%char → Chip.input2 c = Some b →
  Chip.compute_inputs (Chip.compute fuel) h p = Ok (h2, o) →
  h2 !! b = Some cb →
  (nonzero (Chip.result cb) = false →
     Chip.compute (S fuel) h p
     = Ok (Chip.setResult h2 p 0%float,
           o ++ [Text ("Error: Division by zero in chip " +:+ Chip.id c)]) ∧
     field Chip.result (Chip.setResult h2 p 0%float) p = Some 0%float) ∧
  (nonzero (Chip.result cb) = true →
     ∀ a ca, Chip.input1 c = Some a → h2 !! a = Some ca →
       Chip.compute (S fuel) h p
       = Ok (Chip.setResult h2 p (Chip.result ca / Chip.result cb)%float, o) ∧
       field Chip.result (Chip.setResult h2 p (Chip.result ca / Chip.result cb)%float) p
       = Some (Chip.result ca / Chip.result cb)%float).
Proof.
  intros Hc Hty Hin2 Hinputs Hb.
  assert (HtyI : Chip.chipType c ≠ "I"%char) by (by rewrite Hty).
  destruct (same_shape_members _ _ _ _ (compute_inputs_shape _ _ _ _ _ Hinputs) Hc)
    as (c2 & Hc2 & Hty2 & Hid2 & Hi1 & Hi2 & _).
  rewrite (compute_S_eq _ _ _ _ Hc HtyI), Hinputs. simpl.
  split.
  - intros Hz. split; [|by apply field_setResult].
    rewrite (operate_Divide_zero h2 p c2 b cb); try congruence.
    simpl. by rewrite Hid2.
  - intros Hz a ca Hin1 Ha. split; [|by apply field_setResult].
    rewrite (operate_Divide_nonzero h2 p c2 a b ca cb); try congruence.
    simpl. by rewrite app_nil_r.
Qed.

Lemma divide_by_zero_yields_zero_and_one_diagnostic_witness :
  Chip.compute 2 divider_circuit 2
  = Ok (Chip.setResult (Chip.setResult (Chip.setResult divider_circuit 0 6) 1 0) 2 0,
        [Text "Error: Division by zero in chip D1"]).
Proof.
  destruct (divide_by_zero_yields_zero_and_one_diagnostic 1 divider_circuit
              (Chip.setResult (Chip.setResult divider_circuit 0 6) 1 0) [] 2 1
              (Chip.Make "D" "D1" (Some 0) (Some 1) (Some 3) 0 5)
              (Chip.Make "I" "I2" None None (Some 2) 0 0))
    as [Hzero _]; [reflexivity..|].
  destruct Hzero as [Hcompute _]; [reflexivity|]. exact Hcompute.
Defined.

(** C4: take a Negate chip [p] with input1 chip [a] whose inputs have been
    computed (leaving the registry [h2] and the lines [o]).  If [a]'s result
    compares equal to 0, [compute] returns with [p] exactly as it was before
    the call, stale [result] included.  Otherwise [compute] returns with the
    negated result of [a] in [p]. *)
Theorem negate_zero_input_keeps_stale_result
    (fuel : nat) (h h2 : Chip.heap) (o : list line) (p a : ptr) (c ca : Chip.t) :
  h !! p = Some c → Chip.chipType c = "N"%char → Chip.input1 c = Some a →
  Chip.compute_inputs (Chip.compute fuel) h p = Ok (h2, o) →
  h2 !! a = Some ca →
  (nonzero (Chip.result ca) = false →
     Chip.compute (S fuel) h p = Ok (h2, o) ∧ h2 !! p = Some c) ∧
  (nonzero (Chip.result ca) = true →
     Chip.compute (S fuel) h p
     = Ok (Chip.setResult h2 p (- Chip.result ca)%float, o) ∧
     field Chip.result (Chip.setResult h2 p (- Chip.result ca)%float) p
     = Some (- Chip.result ca)%float).
Proof.
  intros Hc Hty Hin1 Hinputs Ha.
  assert (HtyI : Chip.chipType c ≠ "I"%char) by (by rewrite Hty).
  destruct (same_shape_members _ _ _ _ (compute_inputs_shape _ _ _ _ _ Hinputs) Hc)
    as (c2 & Hc2 & Hty2 & Hid2 & Hi1 & Hi2 & _).
  assert (Hcomp : Chip.compute (S fuel) h p
                  = if nonzero (Chip.result ca)
                    then Ok (Chip.setResult h2 p (- Chip.result ca)%float, o)
                    else Ok (h2, o)).
  { rewrite (compute_S_eq _ _ _ _ Hc HtyI), Hinputs. simpl.
    rewrite (operate_Negate h2 p c2 a ca); try congruence.
    destruct (nonzero (Chip.result ca)); simpl; by rewrite app_nil_r. }
  split; intros Hz; rewrite Hz in Hcomp.
  - split; [done|].
    rewrite (compute_inputs_frame _ _ _ _ _ _ p Hc HtyI Hinputs); [done|].
    by eapply compute_acyclic.
  - split; [done|]. by apply field_setResult.
Qed.

Lemma negate_zero_input_keeps_stale_result_witness :
  Chip.compute 2 negator_circuit 1 = Ok (Chip.setResult negator_circuit 0 0%float, []) ∧
  Chip.setResult negator_circuit 0 0%float !! 1
  = Some (Chip.Make "N" "N1" (Some 0) None (Some 2) 0 5).
Proof.
  destruct (negate_zero_input_keeps_stale_result 1 negator_circuit
              (Chip.setResult negator_circuit 0 0%float) [] 1 0
              (Chip.Make "N" "N1" (Some 0) None (Some 2) 0 5)
              (Chip.Make "I" "I1" None None (Some 1) 0 0))
    as [Hzero _]; [reflexivity..|].
  apply Hzero. reflexivity.
Defined.

(** ** QueryOutput *)

Lemma compute_Ok_valid fuel h p r :
  Chip.compute fuel h p = Ok r → is_Some (h !! p).
Proof.
  destruct fuel as [|fuel]; [done|]. destruct r as [h' o].
  intros (c & Hc & _)%compute_S_inv. by exists c.
Qed.

Lemma compute_Output fuel h p c h' o :
  h !! p = Some c → Chip.chipType c = "O"%char →
  Chip.compute fuel h p = Ok (h', o) →
  h' !! p = Some c ∧
  ∀ a, Chip.input1 c = Some a → is_Some (h' !! a).
Proof.
  intros Hc Hty H.
  assert (HtyI : Chip.chipType c ≠ "I"%char) by (by rewrite Hty).
  assert (Hacyc := compute_acyclic _ _ _ _ H).
  destruct fuel as [|fuel]; [done|].
  assert (H' := H).
  rewrite (compute_S_eq _ _ _ _ Hc HtyI) in H'.
  apply bind_Ok in H' as ([h2 o2] & Hinputs & H').
  assert (Hp2 := compute_inputs_frame _ _ _ _ _ _ p Hc HtyI Hinputs Hacyc).
  rewrite Hc in Hp2. rewrite (operate_Output _ _ _ Hp2 Hty) in H'.
  simpl in H'. injection H' as <- _.
  split; [done|]. intros a Hin.
  destruct (compute_edge _ _ _ a _ H) as (h0 & r0 & Hs & H0); [exists c; eauto|].
  destruct (compute_Ok_valid _ _ _ _ H0) as [ca0 Ha0].
  destruct (same_shape_members _ _ _ _ (same_shape_sym _ _ Hs) Ha0) as (ca & Ha & _).
  destruct (same_shape_members _ _ _ _ (compute_shape _ _ _ _ _ H) Ha) as (ca' & Ha' & _).
  by exists ca'.
Qed.



(** ** Add, Subtract, Multiply over two Input chips *)

Lemma arithmetic_kind ty op :
  arithmetic ty = Some op → ty ≠ "I"%char ∧ ty ≠ "O"%char.
Proof.
  unfold arithmetic. intros H. split; intros ->; simpl in H; done.
Qed.

Lemma compute_inputs_two rec h p c a h1 o1 c1 b h2 o2 :
  h !! p = Some c → Chip.input1 c = Some a → rec h a = Ok (h1, o1) →
  h1 !! p = Some c1 → Chip.input2 c1 = Some b → rec h1 b = Ok (h2, o2) →
  Chip.compute_inputs rec h p = Ok (h2, o1 ++ o2).
Proof.
  intros Hc Hin1 H1 Hc1 Hin2 H2. unfold Chip.compute_inputs.
  rewrite (proj2 (deref_Ok _ _ _) Hc). simpl. rewrite Hin1, H1. simpl.
  rewrite (proj2 (deref_Ok _ _ _) Hc1). simpl. by rewrite Hin2, H2.
Qed.

Lemma compute_arithmetic fuel h p a b c ca cb op :
  h !! p = Some c → arithmetic (Chip.chipType c) = Some op →
  Chip.input1 c = Some a → Chip.input2 c = Some b →
  h !! a = Some ca → h !! b = Some cb →
  Chip.chipType ca = "I"%char → Chip.chipType cb = "I"%char →
  ∃ h', Chip.compute (S (S fuel)) h p = Ok (h', []) ∧
        h' !! p = Some (Chip.with_result (op (Chip.inputValue ca) (Chip.inputValue cb)) c).
Proof.
  intros Hc Hop Hin1 Hin2 Ha Hb Htya Htyb.
  destruct (arithmetic_kind _ _ Hop) as [HtyI _].
  assert (Hpa : p ≠ a) by (intros ->; congruence).
  assert (Hpb : p ≠ b) by (intros ->; congruence).
  pose (h1 := Chip.setResult h a (Chip.inputValue ca)).
  pose (h2 := Chip.setResult h1 b (Chip.inputValue cb)).
  assert (H1 : Chip.compute (S fuel) h a = Ok (h1, [])) by (by apply compute_Input).
  assert (Hb1 : ∃ cb1, h1 !! b = Some cb1 ∧ Chip.chipType cb1 = "I"%char ∧
                       Chip.inputValue cb1 = Chip.inputValue cb).
  { destruct (decide (b = a)) as [->|Hba].
    - exists (Chip.with_result (Chip.inputValue ca) ca).
      split; [by apply setResult_lookup|]. by simplify_eq.
    - exists cb. unfold h1. by rewrite setResult_lookup_ne. }
  destruct Hb1 as (cb1 & Hb1 & Htyb1 & Hivb1).
  assert (H2 : Chip.compute (S fuel) h1 b = Ok (h2, [])).
  { rewrite (compute_Input _ _ _ _ Hb1 Htyb1). by rewrite Hivb1. }
  assert (Hp1 : h1 !! p = Some c) by (unfold h1; by rewrite setResult_lookup_ne).
  assert (Hp2 : h2 !! p = Some c) by (unfold h2; by rewrite setResult_lookup_ne).
  assert (Hb2 : h2 !! b = Some (Chip.with_result (Chip.inputValue cb) cb1))
    by (by apply setResult_lookup).
  assert (Ha2 : ∃ ca2, h2 !! a = Some ca2 ∧ Chip.result ca2 = Chip.inputValue ca).
  { destruct (decide (a = b)) as [->|Hab].
    - eexists. split; [done|]. by simplify_eq.
    - exists (Chip.with_result (Chip.inputValue ca) ca).
      split; [|done]. unfold h2. rewrite setResult_lookup_ne; [|done].
      by apply setResult_lookup. }
  destruct Ha2 as (ca2 & Ha2 & Hra2).
  exists (Chip.setResult h2 p (op (Chip.inputValue ca) (Chip.inputValue cb))).
  split; [|by apply setResult_lookup].
  rewrite (compute_S_eq _ _ _ _ Hc HtyI).
  rewrite (compute_inputs_two _ _ _ _ _ _ _ _ _ _ _ Hc Hin1 H1 Hp1 Hin2 H2). simpl.
  rewrite (operate_arithmetic _ _ _ _ _ _ _ _ Hp2 Hop Hin1 Hin2 Ha2 Hb2).
  simpl. by rewrite Hra2.
Qed.

Lemma query_output_other_kind fuel h h' o outputChipId p c c' :
  first_with_id h outputChipId p → h !! p = Some c →
  Chip.chipType c ≠ "O"%char →
  Chip.compute fuel h p = Ok (h', o) → h' !! p = Some c' →
  step fuel h (QueryOutput outputChipId)
  = Ok (h', Text "Computation Starts " :: o ++ [OutputValue (Chip.result c')]).
Proof.
  intros Hfirst Hc Hty H Hc'. unfold step, query_output.
  rewrite (find_first_resolves _ _ _ Hfirst), (proj2 (deref_Ok _ _ _) Hc).
  simpl. unfold is_type.
  destruct (Ascii.eqb_spec (Chip.chipType c) "O"); [done|].
  rewrite H. simpl. by rewrite (proj2 (deref_Ok _ _ _) Hc').
Qed.

Lemma first_with_id_ext h h' chipId p :
  (∀ q, field Chip.id h' q = field Chip.id h q) →
  first_with_id h chipId p → first_with_id h' chipId p.
Proof.
  intros Hid [Hp Hfirst]. split; [by rewrite Hid|].
  intros j Hj. rewrite Hid. by apply Hfirst.
Qed.

Lemma setInputValue_lookup h x v q c :
  h !! q = Some c →
  ∃ c', Chip.setInputValue h x v !! q = Some c' ∧
        Chip.chipType c' = Chip.chipType c ∧ Chip.id c' = Chip.id c ∧
        Chip.input1 c' = Chip.input1 c ∧ Chip.input2 c' = Chip.input2 c ∧
        Chip.inputValue c' = if decide (q = x) then v else Chip.inputValue c.
Proof.
  intros Hc. unfold Chip.setInputValue. destruct (decide (q = x)) as [->|Hne].
  - exists (Chip.with_inputValue v c). by rewrite list_lookup_alter_eq, Hc.
  - exists c. by rewrite list_lookup_alter_ne.
Qed.

Lemma setInputValue_ids h x v q :
  field Chip.id (Chip.setInputValue h x v) q = field Chip.id h q.
Proof.
  unfold field. destruct (h !! q) as [c|] eqn:Hc.
  - destruct (setInputValue_lookup h x v q c Hc) as (c' & -> & _ & Hid & _).
    simpl. by rewrite Hid.
  - unfold Chip.setInputValue.
    destruct (decide (x = q)) as [->|Hne].
    + by rewrite list_lookup_alter_eq, Hc.
    + by rewrite list_lookup_alter_ne, Hc.
Qed.

(** C1: take an Add, Subtract or Multiply chip [p] (arithmetic function
    [op]) whose input1 and input2 are the Input chips [a] and [b].  With a
    recursion budget of two or more, [compute] on [p] returns, prints
    nothing, and leaves [op] of the two current [inputValue]s in [p]'s
    result.  Nothing is cached: a QueryOutput on [p] reports that value, and
    after a SetInput that writes [value] into a chip [x], a second
    QueryOutput reports [op] of the input values as they are then (the new
    [value] for whichever of [a], [b] is [x]). *)
Theorem arithmetic_chip_recomputes_from_current_inputs
    (fuel : nat) (h : Chip.heap) (p a b : ptr) (c ca cb : Chip.t)
    (op : float -> float -> float) :
  h !! p = Some c → arithmetic (Chip.chipType c) = Some op →
  Chip.input1 c = Some a → Chip.input2 c = Some b →
  h !! a = Some ca → h !! b = Some cb →
  Chip.chipType ca = "I"%char → Chip.chipType cb = "I"%char →
  (∃ h', Chip.compute (S (S fuel)) h p = Ok (h', []) ∧
         field Chip.result h' p
         = Some (op (Chip.inputValue ca) (Chip.inputValue cb))) ∧
  ∀ (chipId inputId : string) (value : float) (x : ptr),
    first_with_id h chipId p → first_with_id h inputId x →
    ∃ h1 h2 h3,
      step (S (S fuel)) h (QueryOutput chipId)
      = Ok (h1, [Text "Computation Starts ";
                 OutputValue (op (Chip.inputValue ca) (Chip.inputValue cb))]) ∧
      step (S (S fuel)) h1 (SetInput inputId value) = Ok (h2, []) ∧
      step (S (S fuel)) h2 (QueryOutput chipId)
      = Ok (h3, [Text "Computation Starts ";
                 OutputValue (op (if decide (a = x) then value else Chip.inputValue ca)
                                 (if decide (b = x) then value else Chip.inputValue cb))]).
Proof.
  intros Hc Hop Hin1 Hin2 Ha Hb Htya Htyb.
  destruct (arithmetic_kind _ _ Hop) as [_ HtyO].
  destruct (compute_arithmetic fuel _ _ _ _ _ _ _ _ Hc Hop Hin1 Hin2 Ha Hb Htya Htyb)
    as (h1 & Hcomp1 & Hp1).
  split.
  { exists h1. split; [done|]. unfold field. by rewrite Hp1. }
  intros chipId inputId value x Hfirst Hfirstx.
  assert (Hs := compute_shape _ _ _ _ _ Hcomp1).
  destruct (same_shape_members _ _ _ _ Hs Ha) as (ca1 & Ha1 & Htya1 & _ & _ & _ & _ & Hiva1).
  destruct (same_shape_members _ _ _ _ Hs Hb) as (cb1 & Hb1 & Htyb1 & _ & _ & _ & _ & Hivb1).
  set (h2 := Chip.setInputValue h1 x value).
  destruct (setInputValue_lookup h1 x value p _ Hp1) as (c2 & Hp2 & Hty2 & _ & Hi1 & Hi2 & _).
  destruct (setInputValue_lookup h1 x value a _ Ha1) as (ca2 & Ha2 & Htya2 & _ & _ & _ & Hiva2).
  destruct (setInputValue_lookup h1 x value b _ Hb1) as (cb2 & Hb2 & Htyb2 & _ & _ & _ & Hivb2).
  assert (Hfirst1 : first_with_id h1 chipId p).
  { apply (first_with_id_ext h); [|done]. intros q. by apply same_shape_field. }
  assert (Hfirstx1 : first_with_id h1 inputId x).
  { apply (first_with_id_ext h); [|done]. intros q. by apply same_shape_field. }
  assert (Hfirst2 : first_with_id h2 chipId p).
  { apply (first_with_id_ext h1); [|done]. intros q. apply setInputValue_ids. }
  simpl in Hty2, Hi1, Hi2.
  assert (Hop2 : arithmetic (Chip.chipType c2) = Some op) by congruence.
  assert (Hin12 : Chip.input1 c2 = Some a) by congruence.
  assert (Hin22 : Chip.input2 c2 = Some b) by congruence.
  assert (Htya2' : Chip.chipType ca2 = "I"%char) by congruence.
  assert (Htyb2' : Chip.chipType cb2 = "I"%char) by congruence.
  destruct (compute_arithmetic fuel _ _ _ _ _ _ _ _ Hp2 Hop2 Hin12 Hin22 Ha2 Hb2 Htya2' Htyb2')
    as (h3 & Hcomp3 & Hp3).
  exists h1, h2, h3. split_and!.
  - by rewrite (query_output_other_kind _ _ _ _ _ _ _ _ Hfirst Hc HtyO Hcomp1 Hp1).
  - unfold step, set_input. by rewrite (find_first_resolves _ _ _ Hfirstx1).
  - rewrite (query_output_other_kind _ _ _ _ _ _ _ _ Hfirst2 Hp2 ltac:(congruence) Hcomp3 Hp3).
    simpl. by rewrite Hiva2, Hivb2, Hiva1, Hivb1.
Qed.

Lemma arithmetic_chip_recomputes_from_current_inputs_witness :
  (∃ h', Chip.compute 2 adder_circuit 2 = Ok (h', []) ∧
         field Chip.result h' 2 = Some (3 + 4)%float) ∧
  ∃ h1 h2 h3,
    step 2 adder_circuit (QueryOutput "A1")
    = Ok (h1, [Text "Computation Starts "; OutputValue (3 + 4)%float]) ∧
    step 2 h1 (SetInput "I2" 10%float) = Ok (h2, []) ∧
    step 2 h2 (QueryOutput "A1")
    = Ok (h3, [Text "Computation Starts "; OutputValue (3 + 10)%float]).
Proof.
  destruct (arithmetic_chip_recomputes_from_current_inputs 0 adder_circuit 2 0 1
              (Chip.Make "A" "A1" (Some 0) (Some 1) (Some 3) 0 0)
              (Chip.Make "I" "I1" None None (Some 2) 3 0)
              (Chip.Make "I" "I2" None None (Some 2) 4 0)
              PrimFloat.add)
    as [Hcompute Hqueries]; [reflexivity..|].
  split; [exact Hcompute|].
  apply (Hqueries "A1" "I2" 10%float 1); resolve_id.
Defined.

(** ** Connect *)

Lemma connect_resolved h inputId outputId inp out c :
  last_with_id h inputId inp → last_with_id h outputId out → h !! out = Some c →
  connect h inputId outputId
  = if is_type c "N" || is_type c "O" then Chip.setInput1 h out (Some inp)
    else if is_type c "A" || is_type c "S" || is_type c "M" || is_type c "D" then
      match Chip.input1 c with
      | None => Chip.setInput1 h out (Some inp)
      | Some _ => Chip.setInput2 h out (Some inp)
      end
    else Ok h.
Proof.
  intros Hinp Hout Hc. unfold connect.
  rewrite find_both_find_last, (find_last_resolves _ _ _ _ Hinp),
    (find_last_resolves _ _ _ _ Hout), (proj2 (deref_Ok _ _ _) Hc).
  done.
Qed.

Lemma two_input_kind_tests c :
  two_input_kind (Chip.chipType c) →
  is_type c "N" || is_type c "O" = false ∧
  is_type c "A" || is_type c "S" || is_type c "M" || is_type c "D" = true.
Proof. unfold is_type. by intros [->|[->|[->| ->]]]. Qed.

Lemma one_input_kind_tests c :
  one_input_kind (Chip.chipType c) → is_type c "N" || is_type c "O" = true.
Proof. unfold is_type. by intros [->| ->]. Qed.

Lemma last_with_id_valid h chipId p : last_with_id h chipId p → is_Some (h !! p).
Proof.
  intros [Hp _]. unfold field in Hp. destruct (h !! p); [by eexists|done].
Qed.

Lemma connect_first_free_slot fuel h inputId outputId inp out c :
  last_with_id h inputId inp → last_with_id h outputId out → h !! out = Some c →
  two_input_kind (Chip.chipType c) → Chip.input1 c = None →
  ∃ h', step fuel h (Connect inputId outputId) = Ok (h', []) ∧
        Chip.setInput1 h out (Some inp) = Ok h' ∧
        field Chip.input1 h' out = Some (Some inp) ∧
        field Chip.input2 h' out = Some (Chip.input2 c).
Proof.
  intros Hinp Hout Hc Hty Hin1.
  destruct (last_with_id_valid _ _ _ Hinp) as [ci Hci].
  destruct (setInput1_spec h out inp c ci Hc Hci)
    as (h' & c1 & ci1 & Hset & Hc1 & _ & Hi1 & Hi2 & _).
  exists h'. unfold step. rewrite (connect_resolved _ _ _ _ _ _ Hinp Hout Hc).
  destruct (two_input_kind_tests c Hty) as [-> ->]. rewrite Hin1, Hset.
  unfold field. rewrite Hc1. simpl. by rewrite Hi1, Hi2.
Qed.

Lemma connect_second_slot fuel h inputId outputId inp out c :
  last_with_id h inputId inp → last_with_id h outputId out → h !! out = Some c →
  two_input_kind (Chip.chipType c) → is_Some (Chip.input1 c) →
  ∃ h', step fuel h (Connect inputId outputId) = Ok (h', []) ∧
        Chip.setInput2 h out (Some inp) = Ok h' ∧
        field Chip.input1 h' out = Some (Chip.input1 c) ∧
        field Chip.input2 h' out = Some (Some inp).
Proof.
  intros Hinp Hout Hc Hty [a Hin1].
  destruct (last_with_id_valid _ _ _ Hinp) as [ci Hci].
  destruct (setInput2_spec h out inp c ci Hc Hci)
    as (h' & c1 & ci1 & Hset & Hc1 & _ & Hi2 & Hi1 & _).
  exists h'. unfold step. rewrite (connect_resolved _ _ _ _ _ _ Hinp Hout Hc).
  destruct (two_input_kind_tests c Hty) as [-> ->]. rewrite Hin1, Hset.
  unfold field. rewrite Hc1. simpl. by rewrite Hi1, Hi2, Hin1.
Qed.

Lemma connect_single_input fuel h inputId outputId inp out c :
  last_with_id h inputId inp → last_with_id h outputId out → h !! out = Some c →
  one_input_kind (Chip.chipType c) →
  ∃ h', step fuel h (Connect inputId outputId) = Ok (h', []) ∧
        Chip.setInput1 h out (Some inp) = Ok h' ∧
        field Chip.input1 h' out = Some (Some inp).
Proof.
  intros Hinp Hout Hc Hty.
  destruct (last_with_id_valid _ _ _ Hinp) as [ci Hci].
  destruct (setInput1_spec h out inp c ci Hc Hci)
    as (h' & c1 & ci1 & Hset & Hc1 & _ & Hi1 & _).
  exists h'. unfold step. rewrite (connect_resolved _ _ _ _ _ _ Hinp Hout Hc).
  rewrite (one_input_kind_tests c Hty), Hset.
  unfold field. rewrite Hc1. simpl. by rewrite Hi1.
Qed.

(** *** What a command leaves alone *)

Lemma field_alter {A : Type} (member : Chip.t -> A) f i h q :
  (q = i → ∀ c, member (f c) = member c) →
  field member (alter f i h) q = field member h q.
Proof.
  intros Hm. unfold field. destruct (decide (i = q)) as [->|Hne].
  - rewrite list_lookup_alter_eq. destruct (h !! q); [|done]. simpl. by rewrite Hm.
  - by rewrite list_lookup_alter_ne.
Qed.

Lemma setInput1_field {A : Type} (member : Chip.t -> A) h a ob h' q :
  Chip.setInput1 h a ob = Ok h' →
  (∀ c p, member (Chip.with_output p c) = member c) →
  (q = a → ∀ c p, member (Chip.with_input1 p c) = member c) →
  field member h' q = field member h q.
Proof.
  unfold Chip.setInput1, Chip.setOutput. destruct ob as [b|]; [|done].
  intros [= <-] Hout Hin. rewrite field_alter by auto. apply field_alter; auto.
Qed.

Lemma setInput2_field {A : Type} (member : Chip.t -> A) h a ob h' q :
  Chip.setInput2 h a ob = Ok h' →
  (∀ c p, member (Chip.with_output p c) = member c) →
  (q = a → ∀ c p, member (Chip.with_input2 p c) = member c) →
  field member h' q = field member h q.
Proof.
  unfold Chip.setInput2, Chip.setOutput. destruct ob as [b|]; [|done].
  intros [= <-] Hout Hin. rewrite field_alter by auto. apply field_alter; auto.
Qed.

Lemma find_last_sound cs j chipId found q :
  find_last cs j chipId found = Some q →
  found = Some q ∨ ∃ k, q = j + k ∧ field Chip.id cs k = Some chipId.
Proof.
  revert j found. induction cs as [|c cs IH]; intros j found H; simpl in H; [by left|].
  destruct (IH _ _ H) as [Hf|(k & -> & Hk)].
  - destruct (String.eqb_spec (Chip.id c) chipId) as [Heq|Hne]; [|by left].
    right. exists 0. split; [simplify_eq; lia|]. by rewrite <- Heq.
  - right. exists (S k). split; [lia|done].
Qed.

(** A Connect command changes the input slots of its output chip only, and
    otherwise nothing but output links. *)
Lemma connect_field {A : Type} (member : Chip.t -> A) h inputId outputId h' q :
  connect h inputId outputId = Ok h' →
  (∀ c p, member (Chip.with_output p c) = member c) →
  (field Chip.id h q = Some outputId →
     ∀ c p, member (Chip.with_input1 p c) = member c ∧
            member (Chip.with_input2 p c) = member c) →
  field member h' q = field member h q.
Proof.
  unfold connect. rewrite find_both_find_last.
  destruct (find_last h 0 outputId None) as [out|] eqn:Hout; [|done].
  apply find_last_sound in Hout as [?|(k & -> & Hid)]; [done|]. simpl in *.
  intros H Hm Hin. apply bind_Ok in H as (c & _ & H).
  assert (Hin1 : q = k → ∀ c p, member (Chip.with_input1 p c) = member c).
  { intros -> c' p. by apply Hin. }
  assert (Hin2 : q = k → ∀ c p, member (Chip.with_input2 p c) = member c).
  { intros -> c' p. by apply Hin. }
  repeat case_match; simplify_eq;
    eauto using setInput1_field, setInput2_field.
Qed.

Lemma step_field {A : Type} (member : Chip.t -> A) fuel h cmd h' o q :
  step fuel h cmd = Ok (h', o) →
  (∀ c v, member (Chip.with_result v c) = member c) →
  (∀ c v, member (Chip.with_inputValue v c) = member c) →
  (∀ c p, member (Chip.with_output p c) = member c) →
  (∀ outputId, field Chip.id h q = Some outputId → not_connect_to outputId cmd ∨
     ∀ c p, member (Chip.with_input1 p c) = member c ∧
            member (Chip.with_input2 p c) = member c) →
  field member h' q = field member h q.
Proof.
  intros H Hres Hval Hout Hin. destruct cmd as [inputId outputId|chipId value|chipId|verb];
    simpl in H.
  - apply bind_Ok in H as (h1 & H & [= <- _]).
    apply (connect_field member _ _ _ _ _ H Hout).
    intros Hid. destruct (Hin _ Hid) as [Hne|Hm]; [by destruct Hne|done].
  - injection H as <- _. unfold set_input. case_match; [|done].
    apply field_alter. auto.
  - unfold query_output in H. case_match; [|by simplify_eq].
    apply bind_Ok in H as (c & _ & H).
    assert (∃ o1, Chip.compute fuel h n = Ok (h', o1)) as [o1 Hcomp].
    { case_match; apply bind_Ok in H as ([h1 o1] & Hcomp & H);
        repeat inv_bind H; simplify_eq; eauto. }
    by eapply same_shape_field, compute_shape.
  - by simplify_eq.
Qed.

Lemma step_field_const {A : Type} (member : Chip.t -> A) fuel h cmd h' o q :
  step fuel h cmd = Ok (h', o) →
  (∀ c v, member (Chip.with_result v c) = member c) →
  (∀ c v, member (Chip.with_inputValue v c) = member c) →
  (∀ c p, member (Chip.with_output p c) = member c) →
  (∀ c p, member (Chip.with_input1 p c) = member c) →
  (∀ c p, member (Chip.with_input2 p c) = member c) →
  field member h' q = field member h q.
Proof.
  intros H ??? Hi1 Hi2. apply (step_field member _ _ _ _ _ _ H); try done.
  intros outputId _. by right.
Qed.

Lemma run_field_const {A : Type} (member : Chip.t -> A) fuel h cmds h' o q :
  run fuel h cmds = Ok (h', o) →
  (∀ c v, member (Chip.with_result v c) = member c) →
  (∀ c v, member (Chip.with_inputValue v c) = member c) →
  (∀ c p, member (Chip.with_output p c) = member c) →
  (∀ c p, member (Chip.with_input1 p c) = member c) →
  (∀ c p, member (Chip.with_input2 p c) = member c) →
  field member h' q = field member h q.
Proof.
  intros H ?????. revert h o H.
  induction cmds as [|cmd cmds IH]; intros h o H; simpl in H; [by simplify_eq|].
  apply bind_Ok in H as ([h1 o1] & Hstep & H).
  apply bind_Ok in H as ([h2 o2] & Hrun & [= <- _]).
  rewrite (IH _ _ Hrun). by eapply step_field_const.
Qed.

(** Commands other than a Connect to chip [out]'s id leave the input slots
    of [out] alone. *)
Lemma run_inputs fuel h cmds h' o outputId out :
  run fuel h cmds = Ok (h', o) →
  field Chip.id h out = Some outputId →
  Forall (not_connect_to outputId) cmds →
  field Chip.input1 h' out = field Chip.input1 h out ∧
  field Chip.input2 h' out = field Chip.input2 h out.
Proof.
  intros H Hid Hcmds. revert h o H Hid.
  induction Hcmds as [|cmd cmds Hcmd _ IH]; intros h o H Hid; simpl in H;
    [by simplify_eq|].
  apply bind_Ok in H as ([h1 o1] & Hstep & H).
  apply bind_Ok in H as ([h2 o2] & Hrun & [= <- _]).
  assert (Hid1 : field Chip.id h1 out = Some outputId).
  { by rewrite (step_field_const Chip.id _ _ _ _ _ _ Hstep). }
  destruct (IH _ _ Hrun Hid1) as [-> ->].
  split; apply (step_field _ _ _ _ _ _ _ Hstep); try done;
    intros outputId' Hid'; left; congruence.
Qed.

Lemma last_with_id_ext h h' chipId p :
  (∀ q, field Chip.id h' q = field Chip.id h q) →
  last_with_id h chipId p → last_with_id h' chipId p.
Proof.
  intros Hid [Hp Hlast]. split; [by rewrite Hid|].
  intros j Hj. rewrite Hid. by apply Hlast.
Qed.

Lemma run_last_with_id fuel h cmds h' o chipId p :
  run fuel h cmds = Ok (h', o) → last_with_id h chipId p → last_with_id h' chipId p.
Proof.
  intros H. apply last_with_id_ext. intros q.
  by apply (run_field_const Chip.id _ _ _ _ _ _ H).
Qed.

Lemma field_Some {A : Type} (member : Chip.t -> A) h q v :
  field member h q = Some v ↔ ∃ c, h !! q = Some c ∧ member c = v.
Proof.
  unfold field. destruct (h !! q) as [c|]; simpl; split.
  - intros [= <-]. by exists c.
  - by intros (c' & [= <-] & <-).
  - done.
  - by intros (c' & ? & _).
Qed.

Lemma new_chips_lookup ids q c :
  new_chips ids !! q = Some c →
  Chip.chipType c = type_of_id (Chip.id c) ∧
  Chip.input1 c = None ∧ Chip.input2 c = None ∧ Chip.output c = None.
Proof.
  unfold new_chips. rewrite list_lookup_fmap.
  destruct (ids !! q) as [e|]; [|done]. by intros [= <-].
Qed.

(** C5: (1) start from the registry as created and let [out] be the chip
    that the id [outputId], of Add, Subtract, Multiply or Divide kind,
    resolves to.  After any commands that are not a Connect to [outputId],
    the first Connect to [outputId] binds its input chip through [setInput1];
    after any further such commands, the second Connect to [outputId] binds
    its input chip through [setInput2], and input1 keeps the first chip.
    (2) In any registry, a Connect to a chip of one of these kinds whose
    input1 is occupied binds through [setInput2].  (3) In any registry, a
    Connect to a chip of Negate or Output kind binds through [setInput1]. *)
Theorem connect_fills_input1_then_input2 (fuel : nat) :
  (∀ ids outputId out inputId1 inp1 inputId2 inp2 cmds1 cmds2 h1 o1,
     last_with_id (new_chips ids) outputId out →
     two_input_kind (type_of_id outputId) →
     last_with_id (new_chips ids) inputId1 inp1 →
     last_with_id (new_chips ids) inputId2 inp2 →
     Forall (not_connect_to outputId) cmds1 →
     Forall (not_connect_to outputId) cmds2 →
     run fuel (new_chips ids) cmds1 = Ok (h1, o1) →
     ∃ h2, step fuel h1 (Connect inputId1 outputId) = Ok (h2, []) ∧
           Chip.setInput1 h1 out (Some inp1) = Ok h2 ∧
           field Chip.input1 h2 out = Some (Some inp1) ∧
           field Chip.input2 h2 out = Some None ∧
           ∀ h3 o3, run fuel h2 cmds2 = Ok (h3, o3) →
             ∃ h4, step fuel h3 (Connect inputId2 outputId) = Ok (h4, []) ∧
                   Chip.setInput2 h3 out (Some inp2) = Ok h4 ∧
                   field Chip.input1 h4 out = Some (Some inp1) ∧
                   field Chip.input2 h4 out = Some (Some inp2)) ∧
  (∀ h inputId outputId inp out c,
     last_with_id h inputId inp → last_with_id h outputId out → h !! out = Some c →
     two_input_kind (Chip.chipType c) → is_Some (Chip.input1 c) →
     ∃ h', step fuel h (Connect inputId outputId) = Ok (h', []) ∧
           Chip.setInput2 h out (Some inp) = Ok h' ∧
           field Chip.input1 h' out = Some (Chip.input1 c) ∧
           field Chip.input2 h' out = Some (Some inp)) ∧
  (∀ h inputId outputId inp out c,
     last_with_id h inputId inp → last_with_id h outputId out → h !! out = Some c →
     one_input_kind (Chip.chipType c) →
     ∃ h', step fuel h (Connect inputId outputId) = Ok (h', []) ∧
           Chip.setInput1 h out (Some inp) = Ok h' ∧
           field Chip.input1 h' out = Some (Some inp)).
Proof.
  split_and!; [|by apply connect_second_slot|by apply connect_single_input].
  intros ids outputId out inputId1 inp1 inputId2 inp2 cmds1 cmds2 h1 o1
    Hout Hkind Hinp1 Hinp2 Hcmds1 Hcmds2 Hrun1.
  assert (Hid0 := proj1 Hout).
  destruct (proj1 (field_Some _ _ _ _) Hid0) as (c0 & Hc0 & Hidc0).
  destruct (new_chips_lookup _ _ _ Hc0) as (Hty0 & Hi10 & Hi20 & _).
  (* the state before the first Connect to [outputId] *)
  destruct (run_inputs _ _ _ _ _ _ _ Hrun1 Hid0 Hcmds1) as [Hi11 Hi21].
  assert (Hty1 : field Chip.chipType h1 out = Some (type_of_id outputId)).
  { rewrite (run_field_const Chip.chipType _ _ _ _ _ _ Hrun1) by done.
    apply field_Some. exists c0. by rewrite Hty0, Hidc0. }
  apply field_Some in Hty1 as (c1 & Hc1 & Hty1).
  assert (Hin1 : Chip.input1 c1 = None).
  { unfold field in Hi11. rewrite Hc1, Hc0 in Hi11. simpl in Hi11. congruence. }
  assert (Hin2 : Chip.input2 c1 = None).
  { unfold field in Hi21. rewrite Hc1, Hc0 in Hi21. simpl in Hi21. congruence. }
  destruct (connect_first_free_slot fuel h1 inputId1 outputId inp1 out c1)
    as (h2 & Hstep2 & Hset2 & Hi12 & Hi22);
    [by eapply run_last_with_id|by eapply run_last_with_id|done| |done|].
  { by rewrite Hty1. }
  exists h2. rewrite Hin2 in Hi22. split_and!; try done.
  (* the state before the second Connect to [outputId] *)
  intros h3 o3 Hrun2.
  assert (Hids2 : ∀ q, field Chip.id h2 q = field Chip.id (new_chips ids) q).
  { intros q. rewrite (step_field_const Chip.id _ _ _ _ _ _ Hstep2) by done.
    by apply (run_field_const Chip.id _ _ _ _ _ _ Hrun1). }
  assert (Hid2 : field Chip.id h2 out = Some outputId) by (by rewrite Hids2).
  destruct (run_inputs _ _ _ _ _ _ _ Hrun2 Hid2 Hcmds2) as [Hi13 Hi23].
  assert (Hty3 : field Chip.chipType h3 out = Some (type_of_id outputId)).
  { rewrite (run_field_const Chip.chipType _ _ _ _ _ _ Hrun2) by done.
    rewrite (step_field_const Chip.chipType _ _ _ _ _ _ Hstep2) by done.
    apply field_Some. by exists c1. }
  apply field_Some in Hty3 as (c3 & Hc3 & Hty3).
  assert (Hin3 : Chip.input1 c3 = Some inp1).
  { rewrite Hi12 in Hi13. unfold field in Hi13. rewrite Hc3 in Hi13. simpl in Hi13.
    congruence. }
  destruct (connect_second_slot fuel h3 inputId2 outputId inp2 out c3)
    as (h4 & Hstep4 & Hset4 & Hi14 & Hi24).
  - eapply run_last_with_id; [done|]. by apply (last_with_id_ext (new_chips ids)).
  - eapply run_last_with_id; [done|]. by apply (last_with_id_ext (new_chips ids)).
  - done.
  - by rewrite Hty3.
  - by rewrite Hin3.
  - exists h4. rewrite Hin3 in Hi14. by split_and!.
Qed.

Lemma connect_fills_input1_then_input2_witness :
  ∃ h2, step 0 (wired [("I1", (0, 0)); ("I2", (0, 0)); ("A1", (0, 0)); ("O1", (0, 0))]%float
                      [SetInput "I1" 3%float])
               (Connect "I1" "A1") = Ok (h2, []) ∧
        field Chip.input1 h2 2 = Some (Some 0) ∧
        field Chip.input2 h2 2 = Some None ∧
        ∀ h3 o3, run 0 h2 [Connect "A1" "O1"] = Ok (h3, o3) →
          ∃ h4, step 0 h3 (Connect "I2" "A1") = Ok (h4, []) ∧
                field Chip.input1 h4 2 = Some (Some 0) ∧
                field Chip.input2 h4 2 = Some (Some 1).
Proof.
  destruct (proj1 (connect_fills_input1_then_input2 0)
              [("I1", (0, 0)); ("I2", (0, 0)); ("A1", (0, 0)); ("O1", (0, 0))]%float
              "A1" 2 "I1" 0 "I2" 1 [SetInput "I1" 3%float] [Connect "A1" "O1"]
              (wired [("I1", (0, 0)); ("I2", (0, 0)); ("A1", (0, 0)); ("O1", (0, 0))]%float
                     [SetInput "I1" 3%float]) [])
    as (h2 & Hstep & _ & Hi1 & Hi2 & Hnext).
  - resolve_id.
  - by left.
  - resolve_id.
  - resolve_id.
  - by repeat constructor.
  - by repeat constructor.
  - reflexivity.
  - exists h2. split_and!; [done|done|done|].
    intros h3 o3 Hrun. destruct (Hnext h3 o3 Hrun) as (h4 & H4 & _ & H41 & H42).
    by exists h4.
Defined.

(** ** The connections listing *)

(** C3 (the code departs from the claim): the first display loop skips only
    the chip whose id is "O50", not the chips of Output kind.  With the chips
    O1 and I1 created in this order and no command, the listing shows O1's
    line before the line of the non-Output chip I1, and shows it a second
    time in the final pass. *)
Theorem show_connections_repeats_Output_chip :
  main 0 [("O1", (0, 0)); ("I1", (0, 0))]%float []
  = Ok [Text "***** Showing the connections that were established";
        Text "O1, Input 1 = None";
        Text "I1, Output = None";
        Text "O1, Input 1 = None"].
Proof. vm_compute. reflexivity. Qed.

(** * Further properties of the code *)

(** ** What [compute] does to the registry *)

(** X1: a [compute] that returns has written nothing but [result] members:
    the registry has the same number of chips, and each chip has kept its
    kind, id, input slots, output link and input value. *)
Theorem compute_writes_only_results
    (fuel : nat) (h h' : Chip.heap) (o : list line) (p : ptr) :
  Chip.compute fuel h p = Ok (h', o) →
  length h' = length h ∧
  ∀ q c, h !! q = Some c →
    ∃ c', h' !! q = Some c' ∧ c' = Chip.with_result (Chip.result c') c.
Proof.
  intros H. assert (Hs := compute_shape _ _ _ _ _ H). split.
  - apply Nat.le_antisymm; apply Nat.nlt_ge; intros Hlt.
    + destruct (lookup_lt_is_Some_2 h' (length h) Hlt) as [c' Hc'].
      specialize (Hs (length h)). rewrite Hc', lookup_ge_None_2 in Hs; [done|lia].
    + destruct (lookup_lt_is_Some_2 h (length h') Hlt) as [c Hc].
      specialize (Hs (length h')). rewrite Hc, lookup_ge_None_2 in Hs; [done|lia].
  - intros q c Hc. by apply same_shape_lookup with h.
Qed.

Lemma compute_writes_only_results_witness :
  length (Chip.setResult (Chip.setResult (Chip.setResult adder_circuit 0 3) 1 4) 2 7)
  = length adder_circuit ∧
  ∀ q c, adder_circuit !! q = Some c →
    ∃ c', Chip.setResult (Chip.setResult (Chip.setResult adder_circuit 0 3) 1 4) 2 7 !! q
          = Some c' ∧ c' = Chip.with_result (Chip.result c') c.
Proof.
  apply (compute_writes_only_results 2 adder_circuit _ [] 2). reflexivity.
Defined.

(** X2: a [compute] on chip [p] that returns leaves every chip that is not
    [p] and not upstream of [p] (through the input slots of non-Input chips)
    exactly as it was, [result] included. *)
Theorem compute_leaves_other_chips_alone
    (fuel : nat) (h h' : Chip.heap) (o : list line) (p q : ptr) :
  Chip.compute fuel h p = Ok (h', o) →
  ¬ rtc (edge h) p q →
  h' !! q = h !! q.
Proof. intros H Hnot. by apply (compute_frame _ _ _ _ _ _ H). Qed.

Lemma edge_inv h q q1 :
  edge h q q1 →
  ∃ c, h !! q = Some c ∧ (Chip.input1 c = Some q1 ∨ Chip.input2 c = Some q1).
Proof. intros (c & Hc & _ & Hin). by exists c. Qed.

Lemma compute_leaves_other_chips_alone_witness :
  Chip.setResult (Chip.setResult (Chip.setResult adder_circuit 0 3) 1 4) 2 7 !! 3
  = adder_circuit !! 3.
Proof.
  apply (compute_leaves_other_chips_alone 2 adder_circuit _ [] 2 3); [reflexivity|].
  intros Hrtc. apply rtc_inv in Hrtc as [?|(a & Ha & Hrtc)]; [done|].
  apply edge_inv in Ha as (c & [= <-] & [[= <-]|[= <-]]).
  - apply rtc_inv in Hrtc as [?|(b & (cb & [= <-] & Hty & _) & _)]; done.
  - apply rtc_inv in Hrtc as [?|(b & (cb & [= <-] & Hty & _) & _)]; done.
Defined.

Lemma input_link_edge h q a :
  Input_chips_have_no_inputs h → input_link h q a → edge h q a.
Proof.
  intros Hsrc (c & Hc & Hin). exists c. split_and!; [done| |done].
  intros HI. destruct (Hsrc q c Hc HI) as [H1 H2].
  rewrite H1, H2 in Hin. by destruct Hin.
Qed.

Lemma input_link_cycle h x y :
  Input_chips_have_no_inputs h → tc (input_link h) x y → tc (edge h) x y.
Proof.
  intros Hsrc Hxy. induction Hxy as [x y Hxy|x y z Hxy _ IH].
  - apply tc_once. by apply input_link_edge.
  - apply tc_l with y; [by apply input_link_edge|done].
Qed.

(** X3: [compute] follows the input slots of the chips that are not of
    Input kind (links [edge]).  On a chip that lies on a cycle of such links
    [compute] returns for no recursion budget: the C++ recursion does not
    come back.  In a registry whose Input chips have no input slot set, as
    in every registry the command loop reaches, every cycle of input links
    is such a cycle.  (A cycle through an Input chip with an input slot set
    is not followed: [compute] stops at the Input chip.) *)
Theorem compute_on_cycle_never_returns
    (fuel : nat) (h : Chip.heap) (p : ptr) (r : Chip.heap * list line) :
  tc (edge h) p p ∨ (Input_chips_have_no_inputs h ∧ tc (input_link h) p p) →
  Chip.compute fuel h p ≠ Ok r.
Proof.
  intros Hcycle H. apply (compute_acyclic _ _ _ _ H).
  destruct Hcycle as [Hcycle|[Hsrc Hcycle]]; [done|].
  by apply input_link_cycle.
Qed.

Lemma compute_on_cycle_never_returns_witness :
  Chip.compute 100 loop_circuit 0 ≠ Ok (loop_circuit, []).
Proof.
  apply compute_on_cycle_never_returns. right. split.
  - intros q c Hc Hty. destruct q as [|q]; [|done].
    injection Hc as <-. done.
  - apply tc_once. eexists. split; [reflexivity|]. by left.
Defined.

Lemma operate_lines h p h' o :
  Chip.operate h p = Ok (h', o) →
  o = [] ∨ ∃ c, h !! p = Some c ∧ Chip.chipType c = "D"%char ∧
                o = [division_by_zero_line c].
Proof.
  unfold Chip.operate. intros H.
  apply bind_Ok in H as (c & Hc%deref_Ok & H).
  destruct (Ascii.eqb_spec (Chip.chipType c) "D") as [HD|HD].
  - rewrite HD in H. simpl in H.
    repeat (case_match || inv_bind H); simplify_eq/=; eauto.
  - repeat (case_match || inv_bind H); simplify_eq/=; eauto.
Qed.

(** X4: the only lines a returning [compute] on chip [p] prints are
    division-by-zero diagnostics, each carrying the id of a Divide chip that
    is [p] itself or upstream of [p]. *)
Theorem compute_prints_only_division_diagnostics
    (fuel : nat) (h h' : Chip.heap) (o : list line) (p : ptr) :
  Chip.compute fuel h p = Ok (h', o) →
  ∀ l, l ∈ o →
    ∃ q c, rtc (edge h) p q ∧ h !! q = Some c ∧
           Chip.chipType c = "D"%char ∧ l = division_by_zero_line c.
Proof.
  revert h h' o p. induction fuel as [|fuel IH]; intros h h' o p H l Hl; [done|].
  apply compute_S_inv in H
    as (c & Hc & [(_ & _ & ->)|(Hty & h2 & o2 & o3 & Hin & Hop & ->)]).
  { by apply elem_of_nil in Hl. }
  assert (Hs2 := compute_inputs_shape _ _ _ _ _ Hin).
  apply compute_inputs_inv in Hin
    as (c0 & h1 & o1 & c1 & o2' & Hc0 & H1 & Hc1 & H2 & ->).
  rewrite Hc in Hc0. injection Hc0 as <-.
  assert (Hs1 : same_shape h h1).
  { destruct (Chip.input1 c); [by eapply compute_shape|by simplify_eq]. }
  destruct (same_shape_members _ _ _ _ Hs1 Hc) as (c1' & Hc1' & _ & _ & _ & Hi2 & _).
  rewrite Hc1 in Hc1'. injection Hc1' as <-.
  rewrite !elem_of_app in Hl. destruct Hl as [[Hl|Hl]|Hl].
  - destruct (Chip.input1 c) as [a|] eqn:Hi1; [|simplify_eq; by apply elem_of_nil in Hl].
    destruct (IH _ _ _ _ H1 l Hl) as (q & cq & Hrtc & Hq & Hd & ->).
    exists q, cq. split_and!; try done.
    eapply rtc_l; [|done]. exists c. eauto.
  - destruct (Chip.input2 c1) as [b|] eqn:Hi2'; [|simplify_eq; by apply elem_of_nil in Hl].
    destruct (IH _ _ _ _ H2 l Hl) as (q & cq1 & Hrtc & Hq1 & Hd & ->).
    destruct (same_shape_members _ _ _ _ (same_shape_sym _ _ Hs1) Hq1)
      as (cq & Hq & Htyq & Hidq & _).
    exists q, cq. split_and!; [|done|congruence|].
    + apply (rtc_l _ _ b); [exists c; split_and!; [done|done|right; congruence]|].
      apply (same_shape_rtc h1 h); [by apply same_shape_sym|done].
    + unfold division_by_zero_line. by rewrite Hidq.
  - apply operate_lines in Hop as [->|(c2 & Hc2 & Hd & ->)].
    { by apply elem_of_nil in Hl. }
    apply list_elem_of_singleton in Hl as ->.
    destruct (same_shape_members _ _ _ _ (same_shape_sym _ _ Hs2) Hc2)
      as (c' & Hc' & Hty' & Hid' & _).
    rewrite Hc in Hc'. injection Hc' as <-.
    exists p, c. split_and!; [done|done|congruence|].
    unfold division_by_zero_line. by rewrite Hid'.
Qed.

Lemma compute_prints_only_division_diagnostics_witness :
  ∃ q c, rtc (edge divider_circuit) 2 q ∧ divider_circuit !! q = Some c ∧
         Chip.chipType c = "D"%char ∧
         Text "Error: Division by zero in chip D1" = division_by_zero_line c.
Proof.
  apply (compute_prints_only_division_diagnostics 2 divider_circuit
           (Chip.setResult (Chip.setResult (Chip.setResult divider_circuit 0 6) 1 0) 2 0)
           [Text "Error: Division by zero in chip D1"] 2).
  - reflexivity.
  - by apply list_elem_of_singleton.
Defined.

(** ** When [compute] returns, and when it cannot *)

Lemma fully_wired_shape h h' : same_shape h h' → fully_wired h → fully_wired h'.
Proof.
  intros Hs Hw q c' Hc' Hty'.
  destruct (same_shape_members _ _ _ _ (same_shape_sym _ _ Hs) Hc')
    as (c & Hc & Hty & _ & Hi1 & Hi2 & _).
  destruct (Hw q c Hc) as (Hvalid & Hr1 & Hr2); [congruence|].
  rewrite <- Hty, <- Hi1, <- Hi2. split_and!; [|done|done].
  intros a Ha. destruct (Hvalid a Ha) as [ca Hca].
  destruct (same_shape_members _ _ _ _ Hs Hca) as (ca' & Hca' & _). by exists ca'.
Qed.

Lemma operate_returns h p c :
  h !! p = Some c →
  (reads_input1 (Chip.chipType c) → ∃ a, Chip.input1 c = Some a ∧ is_Some (h !! a)) →
  (reads_input2 (Chip.chipType c) → ∃ b, Chip.input2 c = Some b ∧ is_Some (h !! b)) →
  ∃ r, Chip.operate h p = Ok r.
Proof.
  intros Hc Hr1 Hr2. unfold Chip.operate, reads_input1, reads_input2, two_input_kind in *.
  rewrite (proj2 (deref_Ok _ _ _) Hc). simpl.
  destruct (Ascii.eqb_spec (Chip.chipType c) "A") as [HA|HA];
    [|destruct (Ascii.eqb_spec (Chip.chipType c) "S") as [HS|HS];
      [|destruct (Ascii.eqb_spec (Chip.chipType c) "M") as [HM|HM];
        [|destruct (Ascii.eqb_spec (Chip.chipType c) "D") as [HD|HD];
          [|destruct (Ascii.eqb_spec (Chip.chipType c) "N") as [HN|HN]]]]].
  all: try (destruct Hr1 as (a & -> & ca & Ha); [naive_solver|];
            rewrite (getResult_Some _ _ _ Ha); simpl).
  all: try (destruct Hr2 as (b & -> & cb & Hb); [naive_solver|];
            rewrite (getResult_Some _ _ _ Hb); simpl).
  all: repeat case_match; eauto.
Qed.

Lemma compute_returns (rank : ptr -> nat) fuel h p :
  fully_wired h →
  (∀ q a, edge h q a → rank a < rank q) →
  is_Some (h !! p) →
  rank p < fuel →
  ∃ h' o, Chip.compute fuel h p = Ok (h', o).
Proof.
  revert h p. induction fuel as [|fuel IH]; intros h p Hw Hrank [c Hc] Hlt; [lia|].
  destruct (Ascii.eqb_spec (Chip.chipType c) "I") as [HI|HI].
  { rewrite (compute_Input _ _ _ _ Hc HI). eauto. }
  destruct (Hw p c Hc HI) as (Hvalid & Hr1 & Hr2).
  rewrite (compute_S_eq _ _ _ _ Hc HI).
  (* input1 *)
  assert (∃ h1 o1, match Chip.input1 c with
                   | Some a => Chip.compute fuel h a
                   | None => Ok (h, [])
                   end = Ok (h1, o1)) as (h1 & o1 & H1).
  { destruct (Chip.input1 c) as [a|] eqn:Hi1; [|eauto].
    apply IH; [done|done|by apply Hvalid; left|].
    assert (rank a < rank p); [|lia]. apply Hrank. exists c. eauto. }
  assert (Hs1 : same_shape h h1).
  { destruct (Chip.input1 c); [by eapply compute_shape|by simplify_eq]. }
  destruct (same_shape_members _ _ _ _ Hs1 Hc) as (c1 & Hc1 & Hty1 & _ & Hi11 & Hi21 & _).
  (* input2 *)
  assert (∃ h2 o2, match Chip.input2 c1 with
                   | Some b => Chip.compute fuel h1 b
                   | None => Ok (h1, [])
                   end = Ok (h2, o2)) as (h2 & o2 & H2).
  { destruct (Chip.input2 c1) as [b|] eqn:Hi2; [|eauto].
    apply IH.
    - by apply (fully_wired_shape h).
    - intros q a Hqa. apply Hrank.
      apply (same_shape_edge h1 h); [by apply same_shape_sym|done].
    - destruct (Hvalid b) as [cb Hcb]; [right; congruence|].
      destruct (same_shape_members _ _ _ _ Hs1 Hcb) as (cb' & Hcb' & _). by exists cb'.
    - assert (rank b < rank p); [|lia]. apply Hrank. exists c.
      split_and!; [done|done|right; congruence]. }
  assert (Hs2 : same_shape h h2).
  { apply same_shape_trans with h1; [done|].
    destruct (Chip.input2 c1); [by eapply compute_shape|by simplify_eq]. }
  unfold Chip.compute_inputs.
  rewrite (proj2 (deref_Ok _ _ _) Hc). simpl. rewrite H1. simpl.
  rewrite (proj2 (deref_Ok _ _ _) Hc1). simpl. rewrite H2. simpl.
  (* the operation *)
  destruct (same_shape_members _ _ _ _ Hs2 Hc) as (c2 & Hc2 & Hty2 & _ & Hi12 & Hi22 & _).
  destruct (fully_wired_shape _ _ Hs2 Hw p c2 Hc2) as (Hvalid2 & Hr12 & Hr22);
    [congruence|].
  destruct (operate_returns h2 p c2 Hc2) as [[h3 o3] Hop].
  - intros Hr. destruct (Hr12 Hr) as [a Ha]. exists a. split; [done|].
    apply Hvalid2. by left.
  - intros Hr. destruct (Hr22 Hr) as [b Hb]. exists b. split; [done|].
    apply Hvalid2. by right.
  - rewrite Hop. simpl. eauto.
Qed.

(** X5: on a registry in which every non-Input chip has the inputs its
    operation reads, and whose input links go down along some rank (so there
    is no cycle), [compute] on any chip returns, for every recursion budget
    above the chip's rank. *)
Theorem compute_returns_on_wired_acyclic_circuit
    (rank : ptr -> nat) (fuel : nat) (h : Chip.heap) (p : ptr) :
  fully_wired h →
  (∀ q a, edge h q a → rank a < rank q) →
  is_Some (h !! p) →
  rank p < fuel →
  ∃ h' o, Chip.compute fuel h p = Ok (h', o).
Proof. apply compute_returns. Qed.

Lemma compute_returns_on_wired_acyclic_circuit_witness :
  ∃ h' o, Chip.compute 4 adder_circuit 3 = Ok (h', o).
Proof.
  apply (compute_returns_on_wired_acyclic_circuit (λ q, q) 4 adder_circuit 3).
  - intros q c Hc Hty.
    destruct q as [|[|[|[|q]]]]; try injection Hc as <-; simpl in Hty;
      [done|done| | |done].
    + split_and!; simpl.
      * intros a [Ha|Ha]; injection Ha as <-; by eexists.
      * by eauto.
      * by eauto.
    + split_and!; simpl.
      * intros a [Ha|Ha]; [injection Ha as <-; by eexists|done].
      * by eauto.
      * unfold reads_input2, two_input_kind. intros [?|[?|[?|?]]]; done.
  - intros q a (c & Hc & Hty & Hin).
    destruct q as [|[|[|[|q]]]]; try injection Hc as <-; simpl in Hty, Hin;
      [done|done| | |done].
    + destruct Hin as [Hin|Hin]; injection Hin as <-; lia.
    + destruct Hin as [Hin|Hin]; [injection Hin as <-; lia|done].
  - by eexists.
  - lia.
Defined.

(** ** QueryOutput on a wired circuit *)






Lemma getResult_cases h p :
  Chip.getResult h p = Fault ∨ ∃ v, Chip.getResult h p = Ok v.
Proof.
  unfold Chip.getResult, Chip.arrow, Chip.deref.
  destruct p as [a|]; [|by left]. destruct (h !! a); simpl; eauto.
Qed.

Lemma operate_faults h p c :
  h !! p = Some c → missing_input c → Chip.operate h p = Fault.
Proof.
  intros Hc Hmiss. unfold Chip.operate. rewrite (proj2 (deref_Ok _ _ _) Hc). simpl.
  assert (HNone : Chip.getResult h None = Fault) by done.
  destruct Hmiss as [[Hk Hi]|(Hk & HnD & Hi)]; rewrite Hi, HNone.
  - destruct Hk as [Hk|[Hk|[Hk|Hk]]]; rewrite Hk; simpl; try done;
      destruct (getResult_cases h (Chip.input1 c)) as [->|[v ->]]; done.
  - destruct Hk as [[Hk|[Hk|[Hk|Hk]]]|Hk]; rewrite Hk in *; done.
Qed.

(** X6: an Add, Subtract, Multiply or Divide chip without input2, or an
    Add, Subtract, Multiply or Negate chip without input1, cannot be
    computed: once its inputs are computed the operation dereferences the
    null slot, so [compute] returns for no recursion budget. *)
Theorem compute_with_missing_input_faults
    (h : Chip.heap) (p : ptr) (c : Chip.t) :
  h !! p = Some c → missing_input c →
  (∀ fuel h2 o, Chip.compute_inputs (Chip.compute fuel) h p = Ok (h2, o) →
                Chip.compute (S fuel) h p = Fault) ∧
  (∀ fuel r, Chip.compute fuel h p ≠ Ok r).
Proof.
  intros Hc Hmiss.
  assert (HI : Chip.chipType c ≠ "I"%char).
  { intros HI. unfold missing_input, reads_input1, reads_input2, two_input_kind in Hmiss.
    rewrite HI in Hmiss.
    destruct Hmiss as [[Hk _]|(Hk & _ & _)];
      [destruct Hk as [?|[?|[?|?]]]|destruct Hk as [[?|[?|[?|?]]]|?]]; done. }
  assert (Hfault : ∀ fuel h2 o,
             Chip.compute_inputs (Chip.compute fuel) h p = Ok (h2, o) →
             Chip.compute (S fuel) h p = Fault).
  { intros fuel h2 o Hin. rewrite (compute_S_eq _ _ _ _ Hc HI), Hin. simpl.
    destruct (same_shape_members _ _ _ _ (compute_inputs_shape _ _ _ _ _ Hin) Hc)
      as (c2 & Hc2 & Hty2 & _ & Hi1 & Hi2 & _).
    rewrite (operate_faults h2 p c2 Hc2); [done|].
    unfold missing_input. by rewrite Hty2, Hi1, Hi2. }
  split; [done|].
  intros [|fuel] [h' o] H; [done|].
  assert (H' := H). rewrite (compute_S_eq _ _ _ _ Hc HI) in H'.
  apply bind_Ok in H' as ([h2 o2] & Hin & _).
  by rewrite (Hfault _ _ _ Hin) in H.
Qed.

Lemma compute_with_missing_input_faults_witness :
  Chip.compute 2 half_wired_circuit 1 = Fault.
Proof.
  destruct (compute_with_missing_input_faults half_wired_circuit 1
              (Chip.Make "A" "A1" (Some 0) None None 0 5)) as [Hfault _].
  - reflexivity.
  - left. split; [|reflexivity]. by left.
  - apply (Hfault 1 (Chip.setResult half_wired_circuit 0 3) []). reflexivity.
Defined.

(** ** The lookup loops of [main] *)

Lemma find_first_spec cs j chipId :
  match find_first cs j chipId with
  | Some q => ∃ k, q = j + k ∧ first_with_id cs chipId k
  | None => no_chip_with_id cs chipId
  end.
Proof.
  revert j. induction cs as [|c cs IH]; intros j; simpl.
  - by intros [|i].
  - destruct (String.eqb_spec (Chip.id c) chipId) as [Heq|Hne].
    + exists 0. split; [lia|]. split; [by rewrite <- Heq|]. intros i Hi. lia.
    + specialize (IH (S j)). destruct (find_first cs (S j) chipId) as [q|].
      * destruct IH as (k & -> & Hk & Hfirst). exists (S k). split; [lia|].
        split; [done|]. intros [|i] Hi; [by intros [= ?]|]. apply Hfirst. lia.
      * intros [|i]; [by intros [= ?]|]. apply IH.
Qed.

(** X7: the lookup loop of the [I] and [O] commands (the one with [break])
    finds a chip exactly when some chip carries the id, and the chip it
    finds is the first one in creation order that carries it. *)
Theorem find_first_resolves_first_chip (h : Chip.heap) (chipId : string) :
  (∀ p, find_first h 0 chipId = Some p ↔ first_with_id h chipId p) ∧
  (find_first h 0 chipId = None ↔ no_chip_with_id h chipId).
Proof.
  assert (Hspec := find_first_spec h 0 chipId). split.
  - intros p. split; [|apply find_first_resolves].
    intros H. rewrite H in Hspec. by destruct Hspec as (k & -> & Hk).
  - split; [|apply find_first_none].
    intros H. by rewrite H in Hspec.
Qed.

Lemma find_last_spec cs j chipId found :
  (no_chip_with_id cs chipId ∧ find_last cs j chipId found = found) ∨
  ∃ k, last_with_id cs chipId k ∧ find_last cs j chipId found = Some (j + k).
Proof.
  revert j found. induction cs as [|c cs IH]; intros j found; simpl.
  - left. split; [|done]. by intros [|i].
  - destruct (IH (S j) (if String.eqb (Chip.id c) chipId then Some j else found))
      as [[Hno ->]|(k & Hk & ->)].
    + destruct (String.eqb_spec (Chip.id c) chipId) as [Heq|Hne].
      * right. exists 0. split; [|f_equal; lia].
        split; [by rewrite <- Heq|]. intros [|i] Hi; [lia|]. apply Hno.
      * left. split; [|done]. intros [|i]; [by intros [= ?]|]. apply Hno.
    + right. exists (S k). split; [|f_equal; lia].
      destruct Hk as [Hk Hlast]. split; [done|].
      intros [|i] Hi; [lia|]. apply Hlast. lia.
Qed.

(** X8: the lookup loop of the [A] command (the one without [break])
    resolves each of the two ids to the last chip in creation order that
    carries it, and to the null pointer exactly when no chip carries it. *)
Theorem find_both_resolves_last_chips (h : Chip.heap) (inputId outputId : string) :
  (∀ p, (find_both h 0 inputId outputId None None).1 = Some p ↔ last_with_id h inputId p) ∧
  ((find_both h 0 inputId outputId None None).1 = None ↔ no_chip_with_id h inputId) ∧
  (∀ p, (find_both h 0 inputId outputId None None).2 = Some p ↔ last_with_id h outputId p) ∧
  ((find_both h 0 inputId outputId None None).2 = None ↔ no_chip_with_id h outputId).
Proof.
  rewrite find_both_find_last. simpl.
  assert (Hlast : ∀ chipId,
            (∀ p, find_last h 0 chipId None = Some p ↔ last_with_id h chipId p) ∧
            (find_last h 0 chipId None = None ↔ no_chip_with_id h chipId)).
  { intros chipId. split.
    - intros p. split; [|apply find_last_resolves].
      destruct (find_last_spec h 0 chipId None) as [[_ ->]|(k & Hk & ->)]; [done|].
      by intros [= <-].
    - split; [|by apply find_last_none].
      by destruct (find_last_spec h 0 chipId None) as [[? _]|(k & _ & ->)]. }
  destruct (Hlast inputId) as [? ?], (Hlast outputId) as [? ?]. by split_and!.
Qed.

(** ** Connect and SetInput at the edges *)

(** X9: a Connect command whose output id is carried by no chip, or whose
    input id is carried by no chip while the output id resolves to a chip
    that takes inputs, dereferences a null pointer. *)
Theorem connect_unknown_id_faults
    (fuel : nat) (h : Chip.heap) (inputId outputId : string) :
  no_chip_with_id h outputId ∨
  (no_chip_with_id h inputId ∧
   ∃ out c, last_with_id h outputId out ∧ h !! out = Some c ∧
            (one_input_kind (Chip.chipType c) ∨ two_input_kind (Chip.chipType c))) →
  step fuel h (Connect inputId outputId) = Fault.
Proof.
  unfold step, connect. rewrite find_both_find_last.
  intros [Hno|(Hno & out & c & Hout & Hc & Hkind)].
  - by rewrite (find_last_none _ _ _ _ Hno).
  - rewrite (find_last_none _ _ _ _ Hno), (find_last_resolves _ _ _ _ Hout).
    rewrite (proj2 (deref_Ok _ _ _) Hc). simpl.
    destruct Hkind as [Hkind|Hkind].
    + by rewrite (one_input_kind_tests c Hkind).
    + destruct (two_input_kind_tests c Hkind) as [-> ->].
      by destruct (Chip.input1 c).
Qed.

Lemma connect_unknown_id_faults_witness :
  step 0 adder_circuit (Connect "I9" "O1") = Fault.
Proof.
  apply connect_unknown_id_faults. right. split.
  - intros [|[|[|[|[|j]]]]]; done.
  - exists 3. eexists. split_and!; [resolve_id|reflexivity|by left; right].
Defined.

(** X10: a SetInput command whose id is carried by no chip changes nothing
    and prints nothing. *)
Theorem set_input_unknown_id_changes_nothing
    (fuel : nat) (h : Chip.heap) (chipId : string) (value : float) :
  no_chip_with_id h chipId →
  step fuel h (SetInput chipId value) = Ok (h, []).
Proof. intros Hno. unfold step, set_input. by rewrite find_first_none. Qed.

Lemma set_input_unknown_id_changes_nothing_witness :
  step 0 adder_circuit (SetInput "I9" 1%float) = Ok (adder_circuit, []).
Proof.
  apply set_input_unknown_id_changes_nothing. intros [|[|[|[|[|j]]]]]; done.
Defined.

Lemma setInput1_lookup h a b h' q :
  Chip.setInput1 h a (Some b) = Ok h' →
  h' !! q = (if decide (q = b) then Chip.with_output (Some a) else λ c, c)
            <$> ((if decide (q = a) then Chip.with_input1 (Some b) else λ c, c)
                 <$> h !! q).
Proof.
  unfold Chip.setInput1, Chip.setOutput. intros [= <-].
  rewrite list_lookup_alter. destruct (decide (b = q)) as [->|Hb].
  - rewrite decide_True by done. f_equal.
    rewrite list_lookup_alter. destruct (decide (a = q)) as [->|Ha].
    + by rewrite decide_True.
    + rewrite decide_False by done. by destruct (h !! q).
  - rewrite (decide_False (P := q = b)) by done.
    rewrite list_lookup_alter. destruct (decide (a = q)) as [->|Ha].
    + rewrite decide_True by done. by destruct (h !! q).
    + rewrite decide_False by done. by destruct (h !! q).
Qed.

Lemma setInput2_lookup h a b h' q :
  Chip.setInput2 h a (Some b) = Ok h' →
  h' !! q = (if decide (q = b) then Chip.with_output (Some a) else λ c, c)
            <$> ((if decide (q = a) then Chip.with_input2 (Some b) else λ c, c)
                 <$> h !! q).
Proof.
  unfold Chip.setInput2, Chip.setOutput. intros [= <-].
  rewrite list_lookup_alter. destruct (decide (b = q)) as [->|Hb].
  - rewrite decide_True by done. f_equal.
    rewrite list_lookup_alter. destruct (decide (a = q)) as [->|Ha].
    + by rewrite decide_True.
    + rewrite decide_False by done. by destruct (h !! q).
  - rewrite (decide_False (P := q = b)) by done.
    rewrite list_lookup_alter. destruct (decide (a = q)) as [->|Ha].
    + rewrite decide_True by done. by destruct (h !! q).
    + rewrite decide_False by done. by destruct (h !! q).
Qed.

(** The three ways a Connect command can end without a fault. *)
Lemma connect_cases h inputId outputId h' :
  connect h inputId outputId = Ok h' →
  h' = h ∨
  ∃ inp out c,
    field Chip.id h inp = Some inputId ∧ field Chip.id h out = Some outputId ∧
    h !! out = Some c ∧
    ((Chip.setInput1 h out (Some inp) = Ok h' ∧
      (one_input_kind (Chip.chipType c) ∨
       two_input_kind (Chip.chipType c) ∧ Chip.input1 c = None)) ∨
     (Chip.setInput2 h out (Some inp) = Ok h' ∧
      two_input_kind (Chip.chipType c) ∧ is_Some (Chip.input1 c))).
Proof.
  unfold connect. rewrite find_both_find_last.
  destruct (find_last h 0 outputId None) as [out|] eqn:Hout; [|done].
  apply find_last_sound in Hout as [?|(k & -> & Hout)]; [done|]. simpl.
  intros H. apply bind_Ok in H as (c & Hc%deref_Ok & H).
  assert (Hinp : ∀ x, find_last h 0 inputId None = Some x →
                      field Chip.id h x = Some inputId).
  { intros x Hx. by apply find_last_sound in Hx as [?|(k' & -> & Hx)]. }
  unfold is_type in H.
  destruct (Ascii.eqb_spec (Chip.chipType c) "N") as [HN|HN];
    [|destruct (Ascii.eqb_spec (Chip.chipType c) "O") as [HO|HO];
      [|destruct (Ascii.eqb_spec (Chip.chipType c) "A") as [HA|HA];
        [|destruct (Ascii.eqb_spec (Chip.chipType c) "S") as [HS|HS];
          [|destruct (Ascii.eqb_spec (Chip.chipType c) "M") as [HM|HM];
            [|destruct (Ascii.eqb_spec (Chip.chipType c) "D") as [HD|HD]]]]]];
    simpl in H; try (left; congruence).
  all: destruct (find_last h 0 inputId None) as [inp|] eqn:Hfind;
    [|by destruct (Chip.input1 c)].
  all: right; exists inp, k, c; split_and!; [by apply Hinp|done|done|].
  all: unfold one_input_kind, two_input_kind.
  all: try (left; split; [done|]; left; by eauto).
  all: destruct (Chip.input1 c) eqn:Hi1;
    [right; split_and!; [done| |by eauto]|left; split; [done|right; split; [|done]]];
    by eauto.
Qed.

(** X11: a Connect command that ends without a fault prints nothing and
    changes nothing but links: every chip keeps its kind, id, input value
    and result; input slots change only in chips carrying the output id,
    and output links only in chips carrying the input id. *)
Theorem connect_changes_only_links
    (fuel : nat) (h h' : Chip.heap) (o : list line) (inputId outputId : string) :
  step fuel h (Connect inputId outputId) = Ok (h', o) →
  o = [] ∧
  ∀ q c, h !! q = Some c →
    ∃ c', h' !! q = Some c' ∧
          Chip.chipType c' = Chip.chipType c ∧ Chip.id c' = Chip.id c ∧
          Chip.inputValue c' = Chip.inputValue c ∧ Chip.result c' = Chip.result c ∧
          (Chip.id c ≠ outputId →
             Chip.input1 c' = Chip.input1 c ∧ Chip.input2 c' = Chip.input2 c) ∧
          (Chip.id c ≠ inputId → Chip.output c' = Chip.output c).
Proof.
  simpl. intros H. apply bind_Ok in H as (h1 & H & [= <- <-]). split; [done|].
  intros q c Hc.
  apply connect_cases in H
    as [->|(inp & out & cout & Hinp & Hout & _ & [[Hset _]|[Hset _]])].
  - exists c. by split_and!.
  - rewrite (setInput1_lookup _ _ _ _ q Hset), Hc. simpl. eexists. split; [done|].
    unfold field in Hinp, Hout.
    destruct (decide (q = inp)) as [Hqi|Hqi], (decide (q = out)) as [Hqo|Hqo];
      try subst inp; try subst out;
      try rewrite Hc in Hinp; try rewrite Hc in Hout; simplify_eq/=; by split_and!.
  - rewrite (setInput2_lookup _ _ _ _ q Hset), Hc. simpl. eexists. split; [done|].
    unfold field in Hinp, Hout.
    destruct (decide (q = inp)) as [Hqi|Hqi], (decide (q = out)) as [Hqo|Hqo];
      try subst inp; try subst out;
      try rewrite Hc in Hinp; try rewrite Hc in Hout; simplify_eq/=; by split_and!.
Qed.

Lemma connect_changes_only_links_witness :
  ∃ c', Chip.setOutput (alter (Chip.with_input1 (Some 1)) 3 adder_circuit) 1 (Some 3) !! 2
        = Some c' ∧
        Chip.chipType c' = "A"%char ∧ Chip.id c' = "A1" ∧
        Chip.inputValue c' = 0%float ∧ Chip.result c' = 0%float ∧
        ("A1" ≠ "O1" → Chip.input1 c' = Some 0 ∧ Chip.input2 c' = Some 1) ∧
        ("A1" ≠ "I2" → Chip.output c' = Some 3).
Proof.
  destruct (connect_changes_only_links 0 adder_circuit
              (Chip.setOutput (alter (Chip.with_input1 (Some 1)) 3 adder_circuit) 1 (Some 3))
              [] "I2" "O1") as [_ Hchips]; [reflexivity|].
  apply (Hchips 2 (Chip.Make "A" "A1" (Some 0) (Some 1) (Some 3) 0 0)).
  reflexivity.
Defined.

(** ** Invariants of the command loop *)

Lemma length_of_lookups {A B : Type} (l : list A) (k : list B) :
  (∀ q, is_Some (l !! q) ↔ is_Some (k !! q)) → length l = length k.
Proof.
  intros H. apply Nat.le_antisymm; apply Nat.nlt_ge; intros Hlt.
  - apply lookup_lt_is_Some_2, H, lookup_lt_is_Some_1 in Hlt. lia.
  - apply lookup_lt_is_Some_2, H, lookup_lt_is_Some_1 in Hlt. lia.
Qed.

(** X12: in every registry the command loop reaches, the chips are those
    created in step 3, in creation order: the same number of chips, each
    with the id it was created with and with the first character of that id
    as its kind. *)
Theorem run_keeps_ids_and_kinds
    (fuel : nat) (ids : list (string * (float * float))) (cmds : list command)
    (h : Chip.heap) (o : list line) :
  run fuel (new_chips ids) cmds = Ok (h, o) →
  length h = length ids ∧
  ∀ q, field Chip.id h q = fst <$> ids !! q ∧
       field Chip.chipType h q = (λ e, type_of_id e.1) <$> ids !! q.
Proof.
  intros Hrun.
  assert (Hfields : ∀ q, field Chip.id h q = fst <$> ids !! q ∧
                         field Chip.chipType h q = (λ e, type_of_id e.1) <$> ids !! q).
  { intros q.
    rewrite (run_field_const Chip.id _ _ _ _ _ q Hrun) by done.
    rewrite (run_field_const Chip.chipType _ _ _ _ _ q Hrun) by done.
    unfold field, new_chips. rewrite list_lookup_fmap. by destruct (ids !! q). }
  split; [|done]. apply length_of_lookups. intros q.
  destruct (Hfields q) as [Hid _]. unfold field in Hid.
  destruct (h !! q), (ids !! q); simplify_eq/=; split; by eauto.
Qed.

Lemma run_keeps_ids_and_kinds_witness :
  length adder_circuit = length adder_ids ∧
  ∀ q, field Chip.id adder_circuit q = fst <$> adder_ids !! q ∧
       field Chip.chipType adder_circuit q
       = (λ e, type_of_id e.1) <$> adder_ids !! q.
Proof.
  apply (run_keeps_ids_and_kinds 0 adder_ids
           [Connect "I1" "A1"; Connect "I2" "A1"; Connect "A1" "O1";
            SetInput "I1" 3%float; SetInput "I2" 4%float] adder_circuit []).
  reflexivity.
Defined.

Lemma wiring_ok_links h h' :
  (∀ q, field links h' q = field links h q) → wiring_ok h → wiring_ok h'.
Proof.
  intros Hlinks Hok q c' Hc'.
  assert (Hvalid : ∀ a, is_Some (h !! a) → is_Some (h' !! a)).
  { intros a [ca Ha]. specialize (Hlinks a). unfold field in Hlinks.
    rewrite Ha in Hlinks. by destruct (h' !! a). }
  assert (Hq := Hlinks q). unfold field in Hq. rewrite Hc' in Hq.
  destruct (h !! q) as [c|] eqn:Hc; [|done].
  injection Hq as Hty Hi1 Hi2 Ho.
  destruct (Hok q c Hc) as (Hptr & Hk1 & Hk2).
  rewrite Hty, Hi1, Hi2, Ho. split_and!; [|done|done].
  intros a Ha. by apply Hvalid, Hptr.
Qed.

Lemma query_output_shape fuel h outputChipId h' o :
  query_output fuel h outputChipId = Ok (h', o) → same_shape h h'.
Proof.
  unfold query_output. intros H.
  destruct (find_first h 0 outputChipId) as [p|]; [|by simplify_eq].
  apply bind_Ok in H as (c & _ & H).
  assert (∃ o1, Chip.compute fuel h p = Ok (h', o1)) as [o1 Hcomp].
  { destruct (is_type c "O"); apply bind_Ok in H as ([h1 o1] & Hcomp & H);
      repeat inv_bind H; simplify_eq; eauto. }
  by eapply compute_shape.
Qed.

Lemma setInput_valid_iff (h : Chip.heap) (a b : ptr) (h' : Chip.heap)
    (set : Chip.t -> Chip.t) (q : ptr) :
  h' !! q = (if decide (q = b) then Chip.with_output (Some a) else λ c, c)
            <$> ((if decide (q = a) then set else λ c, c) <$> h !! q) →
  is_Some (h' !! q) ↔ is_Some (h !! q).
Proof. intros ->. rewrite !fmap_is_Some. done. Qed.

Lemma step_wiring_ok fuel h cmd h' o :
  step fuel h cmd = Ok (h', o) → wiring_ok h → wiring_ok h'.
Proof.
  intros H Hok. destruct cmd as [inputId outputId|chipId value|chipId|verb]; simpl in H.
  - apply bind_Ok in H as (h1 & H & [= <- _]).
    apply connect_cases in H
      as [->|(inp & out & cout & Hinp & Hout & Hcout & Hset)]; [done|].
    assert (Hvinp : is_Some (h !! inp)).
    { unfold field in Hinp. by destruct (h !! inp). }
    destruct Hset as [[Hset Hkind]|[Hset Hkind]]; intros q c' Hc'.
    + assert (Hl := λ x, setInput1_lookup _ _ _ _ x Hset).
      rewrite (Hl q) in Hc'. destruct (h !! q) as [c|] eqn:Hc; [|done].
      destruct (Hok q c Hc) as (Hptr & Hk1 & Hk2).
      assert (Hv : ∀ a, is_Some (h !! a) → is_Some (h1 !! a)).
      { intros a Ha. by apply (setInput_valid_iff _ _ _ _ _ _ (Hl a)). }
      destruct (decide (q = inp)) as [Hqi|Hqi], (decide (q = out)) as [Hqo|Hqo];
        try subst inp; try subst out; simplify_eq/=; split_and!;
        try (intros a [Ha|[Ha|Ha]]; apply Hv; simplify_eq; by eauto);
        try done; try (by intros _; destruct Hkind as [?|[? _]]; eauto);
        try (intros Hi2; destruct (Hk2 Hi2); by eauto).
    + assert (Hl := λ x, setInput2_lookup _ _ _ _ x Hset).
      rewrite (Hl q) in Hc'. destruct (h !! q) as [c|] eqn:Hc; [|done].
      destruct (Hok q c Hc) as (Hptr & Hk1 & Hk2).
      assert (Hv : ∀ a, is_Some (h !! a) → is_Some (h1 !! a)).
      { intros a Ha. by apply (setInput_valid_iff _ _ _ _ _ _ (Hl a)). }
      destruct (decide (q = inp)) as [Hqi|Hqi], (decide (q = out)) as [Hqo|Hqo];
        try subst inp; try subst out; simplify_eq/=; split_and!;
        try (intros a [Ha|[Ha|Ha]]; apply Hv; simplify_eq; by eauto);
        try done; try (by intros _; destruct Hkind as [? ?]).
  - injection H as <- _. apply (wiring_ok_links h); [|done].
    intros q. unfold set_input. destruct (find_first h 0 chipId); [|done].
    by apply field_alter.
  - apply (wiring_ok_links h); [|done].
    intros q. by apply same_shape_field, (query_output_shape fuel _ chipId _ o).
  - by simplify_eq.
Qed.

Lemma new_chips_wiring_ok ids : wiring_ok (new_chips ids).
Proof.
  intros q c Hc. destruct (new_chips_lookup _ _ _ Hc) as (_ & -> & -> & ->).
  split_and!; [by intros a [?|[?|?]]|by intros [? ?]|by intros [? ?]].
Qed.

Lemma run_wiring_ok fuel h cmds h' o :
  run fuel h cmds = Ok (h', o) → wiring_ok h → wiring_ok h'.
Proof.
  revert h o. induction cmds as [|cmd cmds IH]; intros h o H Hok; simpl in H;
    [by simplify_eq|].
  apply bind_Ok in H as ([h1 o1] & Hstep & H).
  apply bind_Ok in H as ([h2 o2] & Hrun & [= <- _]).
  apply (IH _ _ Hrun). by eapply step_wiring_ok.
Qed.

(** X13: in every registry the command loop reaches, no pointer dangles
    (each input slot and output link is null or points to a chip of the
    registry), Input chips and chips of unknown kind have no input, Negate
    and Output chips have no input2, and a chip with input2 set has input1
    set. *)
Theorem run_keeps_wiring_ok
    (fuel : nat) (ids : list (string * (float * float))) (cmds : list command)
    (h : Chip.heap) (o : list line) :
  run fuel (new_chips ids) cmds = Ok (h, o) → wiring_ok h.
Proof. intros H. apply (run_wiring_ok _ _ _ _ _ H), new_chips_wiring_ok. Qed.

Lemma run_keeps_wiring_ok_witness : wiring_ok adder_circuit.
Proof.
  apply (run_keeps_wiring_ok 0 adder_ids
           [Connect "I1" "A1"; Connect "I2" "A1"; Connect "A1" "O1";
            SetInput "I1" 3%float; SetInput "I2" 4%float] adder_circuit []).
  reflexivity.
Defined.

(** ** QueryOutput at the edges *)

Lemma compute_inputs_none rec h p c :
  h !! p = Some c → Chip.input1 c = None → Chip.input2 c = None →
  Chip.compute_inputs rec h p = Ok (h, []).
Proof.
  intros Hc Hi1 Hi2. unfold Chip.compute_inputs, Chip.deref.
  rewrite Hc. simpl. rewrite Hi1. simpl. rewrite Hc. simpl. by rewrite Hi2.
Qed.

(** X14: a QueryOutput command that resolves to an Output chip whose input1
    is not connected never ends normally: after [compute] the command reads
    the result through the null input1.  With input2 null as well (as in
    every registry the command loop reaches) the command faults for every
    positive recursion budget. *)
Theorem query_unwired_Output_faults
    (h : Chip.heap) (outputChipId : string) (p : ptr) (c : Chip.t) :
  first_with_id h outputChipId p → h !! p = Some c →
  Chip.chipType c = "O"%char → Chip.input1 c = None →
  (∀ fuel r, step fuel h (QueryOutput outputChipId) ≠ Ok r) ∧
  (Chip.input2 c = None →
   ∀ fuel, step (S fuel) h (QueryOutput outputChipId) = Fault).
Proof.
  intros Hfirst Hc Hty Hi1.
  assert (Hstep : ∀ fuel,
            step fuel h (QueryOutput outputChipId)
            = '(h', o) ← Chip.compute fuel h p;
              c' ← Chip.deref h' p;
              v ← Chip.getResult h' (Chip.input1 c');
              Ok (h', computation_starts :: o ++ [OutputValue v])).
  { intros fuel. unfold step, query_output.
    rewrite (find_first_resolves _ _ _ Hfirst), (proj2 (deref_Ok _ _ _) Hc).
    simpl. unfold is_type. by rewrite Hty. }
  split.
  - intros fuel r. rewrite Hstep.
    destruct (Chip.compute fuel h p) as [[h' o]| |] eqn:Hcomp; [|done|done]. simpl.
    destruct (compute_Output _ _ _ _ _ _ Hc Hty Hcomp) as [Hc' _].
    rewrite (proj2 (deref_Ok _ _ _) Hc'). simpl. by rewrite Hi1.
  - intros Hi2 fuel. rewrite Hstep.
    assert (HI : Chip.chipType c ≠ "I"%char) by (by rewrite Hty).
    rewrite (compute_S_eq _ _ _ _ Hc HI), (compute_inputs_none _ _ _ _ Hc Hi1 Hi2).
    simpl. rewrite (operate_Output _ _ _ Hc Hty). simpl.
    rewrite (proj2 (deref_Ok _ _ _) Hc). simpl. by rewrite Hi1.
Qed.

Lemma query_unwired_Output_faults_witness :
  step 3 (new_chips [("I1", (0, 0)); ("O1", (0, 0))]%float) (QueryOutput "O1") = Fault.
Proof.
  destruct (query_unwired_Output_faults
              (new_chips [("I1", (0, 0)); ("O1", (0, 0))]%float) "O1" 1
              (Chip.Make "O" "O1" None None None 0 0)) as [_ Hfault];
    [resolve_id|reflexivity|reflexivity|reflexivity|].
  by apply Hfault.
Defined.

(** ** The connections listing *)

Lemma getId_or_None_cases h p :
  Chip.getId_or_None h p = Fault ∨ ∃ s, Chip.getId_or_None h p = Ok s.
Proof.
  unfold Chip.getId_or_None, Chip.getId, Chip.arrow, Chip.deref.
  destruct p as [a|]; [|by eauto]. destruct (h !! a); simpl; eauto.
Qed.

Lemma getId_or_None_valid (h : Chip.heap) (p : option ptr) :
  (∀ a, p = Some a → is_Some (h !! a)) → ∃ s, Chip.getId_or_None h p = Ok s.
Proof.
  intros Hvalid. unfold Chip.getId_or_None, Chip.getId, Chip.arrow, Chip.deref.
  destruct p as [a|]; [|by eauto]. destruct (Hvalid a eq_refl) as [c ->]. simpl. eauto.
Qed.

Lemma display_cases h q :
  Chip.display h q = Fault ∨ ∃ s, Chip.display h q = Ok [Text s].
Proof.
  unfold Chip.display, Chip.deref. destruct (h !! q) as [c|]; [|by left]. simpl.
  destruct (getId_or_None_cases h (Chip.output c)) as [Ho|[so Ho]],
    (getId_or_None_cases h (Chip.input1 c)) as [H1|[s1 H1]],
    (getId_or_None_cases h (Chip.input2 c)) as [H2|[s2 H2]];
    rewrite ?Ho, ?H1, ?H2; repeat case_match; simpl; eauto.
  all: unfold Chip.getId, Chip.arrow, Chip.deref;
    destruct (Chip.output c) as [a|]; [|by eauto];
    destruct (h !! a); simpl; eauto.
Qed.

Lemma display_without_output h q c :
  h !! q = Some c → Chip.chipType c ≠ "I"%char → Chip.chipType c ≠ "O"%char →
  Chip.output c = None → Chip.display h q = Fault.
Proof.
  intros Hc HI HO Ho. unfold Chip.display. rewrite (proj2 (deref_Ok _ _ _) Hc). simpl.
  destruct (Ascii.eqb_spec (Chip.chipType c) "I"); [done|].
  destruct (Ascii.eqb_spec (Chip.chipType c) "O"); [done|].
  rewrite Ho.
  destruct (getId_or_None_cases h (Chip.input1 c)) as [->|[s1 ->]]; [done|]. simpl.
  by destruct (getId_or_None_cases h (Chip.input2 c)) as [->|[s2 ->]].
Qed.

Lemma wiring_ok_no_dangling h : wiring_ok h → no_dangling h.
Proof. intros Hok q c Hc. by destruct (Hok q c Hc) as (Hptr & _). Qed.

Lemma display_returns h q c :
  no_dangling h → h !! q = Some c →
  (Chip.chipType c ≠ "I"%char → Chip.chipType c ≠ "O"%char → is_Some (Chip.output c)) →
  ∃ l, Chip.display h q = Ok l.
Proof.
  intros Hok Hc Hout. assert (Hptr := Hok q c Hc).
  destruct (getId_or_None_valid h (Chip.input1 c)) as [s1 H1]; [by eauto|].
  destruct (getId_or_None_valid h (Chip.input2 c)) as [s2 H2]; [by eauto|].
  destruct (getId_or_None_valid h (Chip.output c)) as [so Ho]; [by eauto 6|].
  unfold Chip.display. rewrite (proj2 (deref_Ok _ _ _) Hc). simpl.
  destruct (Ascii.eqb_spec (Chip.chipType c) "I"); [rewrite Ho; simpl; eauto|].
  destruct (Ascii.eqb_spec (Chip.chipType c) "O"); [rewrite H1; simpl; eauto|].
  rewrite H1, H2. simpl. destruct Hout as [a Ha]; [done|done|].
  rewrite Ha in Ho |- *. unfold Chip.getId_or_None in Ho. rewrite Ho. simpl. eauto.
Qed.

Lemma display_pass_returns shown h cs i :
  (∀ k c, cs !! k = Some c → shown c = true → ∃ l, Chip.display h (i + k) = Ok l) →
  ∃ ls, display_pass shown h cs i = Ok ls.
Proof.
  revert i. induction cs as [|c cs IH]; intros i Hall; simpl; [by eauto|].
  destruct (IH (S i)) as [ls Hls].
  { intros k ck Hk Hs. replace (S i + k) with (i + S k) by lia. by apply (Hall (S k) ck). }
  rewrite Hls. destruct (shown c) eqn:Hs; simpl; [|by eauto].
  destruct (Hall 0 c eq_refl Hs) as [l Hl]. rewrite Nat.add_0_r in Hl.
  rewrite Hl. simpl. eauto.
Qed.

Lemma display_pass_faults shown h cs i k c :
  cs !! k = Some c → shown c = true → Chip.display h (i + k) = Fault →
  display_pass shown h cs i = Fault.
Proof.
  revert i k. induction cs as [|c0 cs IH]; intros i k Hk Hs Hd; [done|]. simpl.
  destruct k as [|k].
  - injection Hk as ->. rewrite Nat.add_0_r in Hd. by rewrite Hs, Hd.
  - rewrite (IH (S i) k); [|done|done|by replace (S i + k) with (i + S k) by lia].
    destruct (shown c0); [|done].
    by destruct (display_cases h i) as [->|[s ->]].
Qed.

Lemma display_pass_length shown h cs i ls :
  display_pass shown h cs i = Ok ls → length ls = length (List.filter shown cs).
Proof.
  revert i ls. induction cs as [|c cs IH]; intros i ls H; simpl in H; [by simplify_eq|].
  apply bind_Ok in H as (l & Hl & H). apply bind_Ok in H as (ls' & Hls & [= <-]).
  rewrite length_app, (IH _ _ Hls). simpl. destruct (shown c); [|by simplify_eq].
  destruct (display_cases h i) as [Hd|[s Hd]]; rewrite Hd in Hl; by simplify_eq.
Qed.

(** X15: a chip of a kind other than Input and Output whose id is not
    "O50" and whose output link is null makes [display] dereference the
    null link, so the connections listing is not printed to the end.  In a
    registry without dangling pointers (every input slot and output link is
    null or points to a chip of the registry) nothing else stops the
    listing: it is printed to the end exactly when every such chip has its
    output link set. *)
Theorem show_connections_returns_iff_outputs_set (h : Chip.heap) :
  ((∃ q c, h !! q = Some c ∧ needs_output c ∧ Chip.output c = None) →
   show_connections h = Fault) ∧
  (no_dangling h →
   ((∃ ls, show_connections h = Ok ls) ↔
    ∀ q c, h !! q = Some c → needs_output c → is_Some (Chip.output c))).
Proof.
  assert (Hfault : (∃ q c, h !! q = Some c ∧ needs_output c ∧ Chip.output c = None) →
                   show_connections h = Fault).
  { intros (q & c & Hc & (Hs & HI & HO) & Ho). unfold show_connections.
    by rewrite (display_pass_faults first_pass h h 0 q c Hc Hs
                  (display_without_output _ _ _ Hc HI HO Ho)). }
  split; [done|]. intros Hok. split.
  - intros [ls Hls] q c Hc Hneed.
    destruct (Chip.output c) as [a|] eqn:Ho; [by eauto|].
    rewrite Hfault in Hls; [done|]. by exists q, c.
  - intros Hout. unfold show_connections.
    destruct (display_pass_returns first_pass h h 0) as [l1 ->].
    { intros k c Hc Hs. apply (display_returns h k c Hok Hc).
      intros HI HO. by apply (Hout k c Hc). }
    destruct (display_pass_returns second_pass h h 0) as [l2 ->].
    { intros k c Hc Hs. apply (display_returns h k c Hok Hc).
      intros _ HO. unfold second_pass, is_type in Hs.
      by destruct (Ascii.eqb_spec (Chip.chipType c) "O"). }
    simpl. eauto.
Qed.

Lemma show_connections_returns_iff_outputs_set_witness :
  show_connections half_wired_circuit = Fault ∧
  ∃ ls, show_connections adder_circuit = Ok ls.
Proof.
  split.
  - apply (show_connections_returns_iff_outputs_set half_wired_circuit).
    exists 1. eexists. split; [reflexivity|]. by split.
  - apply (show_connections_returns_iff_outputs_set adder_circuit).
    + intros q c Hc a Ha.
      destruct q as [|[|[|[|q]]]]; try injection Hc as <-; simpl in Ha; [..|done].
      all: destruct Ha as [Ha|[Ha|Ha]]; try done; injection Ha as <-; by eexists.
    + intros q c Hc (_ & HI & HO).
      destruct q as [|[|[|[|q]]]]; try injection Hc as <-; simpl in HI, HO;
        [done|done|by eexists|done|done].
Defined.

(** X16: a listing that is printed to the end has, after the header, one
    line for each chip whose id is not "O50" and then one more line for each
    chip of Output kind: an Output chip with another id contributes two
    lines. *)
Theorem show_connections_line_count (h : Chip.heap) (ls : list line) :
  show_connections h = Ok ls →
  length ls = 1 + length (List.filter first_pass h) + length (List.filter second_pass h).
Proof.
  unfold show_connections. intros H.
  apply bind_Ok in H as (l1 & H1 & H). apply bind_Ok in H as (l2 & H2 & [= <-]).
  simpl. rewrite length_app.
  by rewrite (display_pass_length _ _ _ _ _ H1), (display_pass_length _ _ _ _ _ H2).
Qed.

Lemma show_connections_line_count_witness :
  length [Text "***** Showing the connections that were established";
          Text "I1, Output = A1"; Text "I2, Output = A1";
          Text "A1, Input 1 = I1, Input 2 = I2, Output = O1";
          Text "O1, Input 1 = A1"; Text "O1, Input 1 = A1"]
  = 1 + length (List.filter first_pass adder_circuit)
      + length (List.filter second_pass adder_circuit).
Proof. apply (show_connections_line_count adder_circuit). reflexivity. Defined.

(** ** Whole queries *)

(** Computing the inputs of a chip whose two inputs are Input chips. *)
Lemma compute_inputs_of_Inputs fuel h m a b cm ca cb :
  h !! m = Some cm → Chip.chipType cm ≠ "I"%char →
  Chip.input1 cm = Some a → Chip.input2 cm = Some b →
  h !! a = Some ca → h !! b = Some cb →
  Chip.chipType ca = "I"%char → Chip.chipType cb = "I"%char →
  ∃ h2 ca2 cb2,
    Chip.compute_inputs (Chip.compute (S fuel)) h m = Ok (h2, []) ∧
    h2 !! m = Some cm ∧
    h2 !! a = Some ca2 ∧ Chip.result ca2 = Chip.inputValue ca ∧
    h2 !! b = Some cb2 ∧ Chip.result cb2 = Chip.inputValue cb.
Proof.
  intros Hm HI Hi1 Hi2 Ha Hb Htya Htyb.
  assert (Hma : m ≠ a) by (intros ->; congruence).
  assert (Hmb : m ≠ b) by (intros ->; congruence).
  pose (h1 := Chip.setResult h a (Chip.inputValue ca)).
  pose (h2 := Chip.setResult h1 b (Chip.inputValue cb)).
  assert (H1 : Chip.compute (S fuel) h a = Ok (h1, [])) by (by apply compute_Input).
  assert (Ha1 : h1 !! a = Some (Chip.with_result (Chip.inputValue ca) ca))
    by (by apply setResult_lookup).
  assert (∃ cb1, h1 !! b = Some cb1 ∧ Chip.chipType cb1 = "I"%char ∧
                 Chip.inputValue cb1 = Chip.inputValue cb) as (cb1 & Hb1 & Htyb1 & Hivb1).
  { destruct (decide (b = a)) as [->|Hba].
    - eexists. split; [done|]. by simplify_eq.
    - exists cb. unfold h1. by rewrite setResult_lookup_ne. }
  assert (H2 : Chip.compute (S fuel) h1 b = Ok (h2, [])).
  { rewrite (compute_Input _ _ _ _ Hb1 Htyb1). by rewrite Hivb1. }
  assert (Hm1 : h1 !! m = Some cm) by (unfold h1; by rewrite setResult_lookup_ne).
  assert (Hb2 : h2 !! b = Some (Chip.with_result (Chip.inputValue cb) cb1))
    by (by apply setResult_lookup).
  assert (∃ ca2, h2 !! a = Some ca2 ∧ Chip.result ca2 = Chip.inputValue ca)
    as (ca2 & Ha2 & Hra2).
  { destruct (decide (a = b)) as [->|Hab].
    - eexists. split; [done|]. by simplify_eq.
    - eexists. unfold h2. by rewrite setResult_lookup_ne. }
  exists h2, ca2, (Chip.with_result (Chip.inputValue cb) cb1).
  split_and!; [|by unfold h2; rewrite setResult_lookup_ne|done..].
  by rewrite (compute_inputs_two _ _ _ _ _ _ _ _ _ _ _ Hm Hi1 H1 Hm1 Hi2 H2).
Qed.

(** What a QueryOutput on an Output chip [p] prints when [compute] on its
    input1 chip [m] returns and [p] has no input2. *)
Lemma query_through_Output fuel h outputChipId p c m h1 o cm1 :
  first_with_id h outputChipId p → h !! p = Some c →
  Chip.chipType c = "O"%char → Chip.input1 c = Some m → Chip.input2 c = None →
  Chip.compute fuel h m = Ok (h1, o) → h1 !! m = Some cm1 →
  step (S fuel) h (QueryOutput outputChipId)
  = Ok (h1, Text "Computation Starts " :: o ++ [OutputValue (Chip.result cm1)]).
Proof.
  intros Hfirst Hc Hty Hi1 Hi2 Hcomp Hm1.
  assert (HI : Chip.chipType c ≠ "I"%char) by (by rewrite Hty).
  destruct (same_shape_members _ _ _ _ (compute_shape _ _ _ _ _ Hcomp) Hc)
    as (c1 & Hc1 & Hty1 & _ & Hi11 & Hi21 & _).
  assert (Hp : Chip.compute (S fuel) h p = Ok (h1, o)).
  { rewrite (compute_S_eq _ _ _ _ Hc HI). unfold Chip.compute_inputs.
    rewrite (proj2 (deref_Ok _ _ _) Hc). simpl. rewrite Hi1, Hcomp. simpl.
    rewrite (proj2 (deref_Ok _ _ _) Hc1). simpl. rewrite Hi21, Hi2. simpl.
    rewrite (operate_Output _ _ _ Hc1); [|congruence]. simpl.
    by rewrite !app_nil_r. }
  unfold step, query_output.
  rewrite (find_first_resolves _ _ _ Hfirst), (proj2 (deref_Ok _ _ _) Hc), Hp.
  simpl. unfold is_type. rewrite Hty. simpl.
  rewrite (proj2 (deref_Ok _ _ _) Hc1). simpl.
  by rewrite Hi11, Hi1, (getResult_Some _ _ _ Hm1).
Qed.

(** X17: an Output chip fed by an Add, Subtract or Multiply chip over two
    Input chips (the first scenario of the specification, for any such
    registry): with a recursion budget of three or more, QueryOutput on the
    Output chip prints the start line and then the arithmetic function of
    the two current input values, and nothing else. *)
Theorem query_Output_over_arithmetic_chip
    (fuel : nat) (h : Chip.heap) (outputChipId : string) (p m a b : ptr)
    (c cm ca cb : Chip.t) (op : float -> float -> float) :
  first_with_id h outputChipId p → h !! p = Some c →
  Chip.chipType c = "O"%char → Chip.input1 c = Some m → Chip.input2 c = None →
  h !! m = Some cm → arithmetic (Chip.chipType cm) = Some op →
  Chip.input1 cm = Some a → Chip.input2 cm = Some b →
  h !! a = Some ca → h !! b = Some cb →
  Chip.chipType ca = "I"%char → Chip.chipType cb = "I"%char →
  ∃ h', step (S (S (S fuel))) h (QueryOutput outputChipId)
        = Ok (h', [Text "Computation Starts ";
                   OutputValue (op (Chip.inputValue ca) (Chip.inputValue cb))]).
Proof.
  intros Hfirst Hc Hty Hi1 Hi2 Hm Hop Hmi1 Hmi2 Ha Hb Htya Htyb.
  destruct (compute_arithmetic fuel _ _ _ _ _ _ _ _ Hm Hop Hmi1 Hmi2 Ha Hb Htya Htyb)
    as (h1 & Hcomp & Hm1).
  exists h1.
  by rewrite (query_through_Output _ _ _ _ _ _ _ _ _ Hfirst Hc Hty Hi1 Hi2 Hcomp Hm1).
Qed.

Lemma query_Output_over_arithmetic_chip_witness :
  ∃ h', step 3 adder_circuit (QueryOutput "O1")
        = Ok (h', [Text "Computation Starts "; OutputValue (3 + 4)%float]).
Proof.
  apply (query_Output_over_arithmetic_chip 0 adder_circuit "O1" 3 2 0 1
           (Chip.Make "O" "O1" (Some 2) None None 0 0)
           (Chip.Make "A" "A1" (Some 0) (Some 1) (Some 3) 0 0)
           (Chip.Make "I" "I1" None None (Some 2) 3 0)
           (Chip.Make "I" "I2" None None (Some 2) 4 0)
           PrimFloat.add); first [resolve_id | reflexivity].
Defined.

(** X18: an Output chip fed by a Divide chip over two Input chips (the
    second scenario of the specification, for any such registry): with a
    recursion budget of three or more, QueryOutput on the Output chip prints
    the start line and then either the quotient of the two input values or,
    when the divisor's input value compares equal to 0, the diagnostic for
    the Divide chip followed by the value 0. *)
Theorem query_Output_over_Divide_chip
    (fuel : nat) (h : Chip.heap) (outputChipId : string) (p m a b : ptr)
    (c cm ca cb : Chip.t) :
  first_with_id h outputChipId p → h !! p = Some c →
  Chip.chipType c = "O"%char → Chip.input1 c = Some m → Chip.input2 c = None →
  h !! m = Some cm → Chip.chipType cm = "D"%char →
  Chip.input1 cm = Some a → Chip.input2 cm = Some b →
  h !! a = Some ca → h !! b = Some cb →
  Chip.chipType ca = "I"%char → Chip.chipType cb = "I"%char →
  ∃ h', step (S (S (S fuel))) h (QueryOutput outputChipId)
        = Ok (h', Text "Computation Starts " ::
                  if nonzero (Chip.inputValue cb)
                  then [OutputValue (Chip.inputValue ca / Chip.inputValue cb)%float]
                  else [division_by_zero_line cm; OutputValue 0%float]).
Proof.
  intros Hfirst Hc Hty Hi1 Hi2 Hm Htym Hmi1 Hmi2 Ha Hb Htya Htyb.
  assert (HI : Chip.chipType cm ≠ "I"%char) by (by rewrite Htym).
  destruct (compute_inputs_of_Inputs fuel _ _ _ _ _ _ _ Hm HI Hmi1 Hmi2 Ha Hb Htya Htyb)
    as (h2 & ca2 & cb2 & Hin & Hm2 & Ha2 & Hra & Hb2 & Hrb).
  destruct (nonzero (Chip.inputValue cb)) eqn:Hz.
  - assert (Hcomp : Chip.compute (S (S fuel)) h m
                    = Ok (Chip.setResult h2 m (Chip.inputValue ca / Chip.inputValue cb)%float,
                          [])).
    { rewrite (compute_S_eq _ _ _ _ Hm HI), Hin. simpl.
      rewrite (operate_Divide_nonzero _ _ _ _ _ _ _ Hm2 Htym Hmi1 Hmi2 Ha2 Hb2);
        [|by rewrite Hrb].
      simpl. by rewrite Hra, Hrb. }
    eexists.
    by rewrite (query_through_Output _ _ _ _ _ _ _ _ _ Hfirst Hc Hty Hi1 Hi2 Hcomp
                  (setResult_lookup _ _ _ _ Hm2)).
  - assert (Hcomp : Chip.compute (S (S fuel)) h m
                    = Ok (Chip.setResult h2 m 0%float, [division_by_zero_line cm])).
    { rewrite (compute_S_eq _ _ _ _ Hm HI), Hin. simpl.
      rewrite (operate_Divide_zero _ _ _ _ _ Hm2 Htym Hmi2 Hb2); [|by rewrite Hrb].
      done. }
    eexists.
    by rewrite (query_through_Output _ _ _ _ _ _ _ _ _ Hfirst Hc Hty Hi1 Hi2 Hcomp
                  (setResult_lookup _ _ _ _ Hm2)).
Qed.

Lemma query_Output_over_Divide_chip_witness :
  ∃ h', step 3 divider_circuit (QueryOutput "O1")
        = Ok (h', [Text "Computation Starts ";
                   Text "Error: Division by zero in chip D1"; OutputValue 0%float]).
Proof.
  apply (query_Output_over_Divide_chip 0 divider_circuit "O1" 3 2 0 1
           (Chip.Make "O" "O1" (Some 2) None None 0 5)
           (Chip.Make "D" "D1" (Some 0) (Some 1) (Some 3) 0 5)
           (Chip.Make "I" "I1" None None (Some 2) 6 5)
           (Chip.Make "I" "I2" None None (Some 2) 0 5)); first [resolve_id | reflexivity].
Defined.

(** ** [compute] against a pure evaluator *)

Lemma value_mono fuel fuel' h p v :
  value fuel h p = Some v → fuel ≤ fuel' → value fuel' h p = Some v.
Proof.
  revert fuel' p v. induction fuel as [|fuel IH]; intros fuel' p v H Hle; [done|].
  destruct fuel' as [|fuel']; [lia|]. simpl in *.
  destruct (h !! p) as [c|]; [|done]. simpl in *.
  repeat (case_match; [simplify_option_eq; eauto with lia|]);
    repeat case_match; simplify_option_eq; eauto with lia.
  all: repeat match goal with
         | Hx : value _ _ ?x = Some ?vx |- _ =>
           rewrite (IH fuel' x vx Hx) by lia; clear Hx
         end.
  all: simpl; repeat case_match; congruence.
Qed.

Lemma value_agree fuel1 fuel2 h p v1 v2 :
  value fuel1 h p = Some v1 → value fuel2 h p = Some v2 → v1 = v2.
Proof.
  intros H1 H2.
  apply (value_mono _ (fuel1 `max` fuel2)) in H1; [|lia].
  apply (value_mono _ (fuel1 `max` fuel2)) in H2; [|lia].
  congruence.
Qed.

Lemma with_result_result c : Chip.with_result (Chip.result c) c = c.
Proof. by destruct c. Qed.

(** The value of a chip does not depend on results that are themselves
    values already. *)
Lemma value_partly_evaluated h g :
  partly_evaluated h g → ∀ fuel q, value fuel g q = value fuel h q.
Proof.
  intros Hpe fuel. induction fuel as [|fuel IH]; intros q; [done|]. simpl.
  destruct (Hpe q) as [->|(f0 & v & c & Hv & Hc & Hg)].
  { destruct (h !! q) as [c|]; [|done]. simpl.
    destruct (Chip.input1 c) as [a|], (Chip.input2 c) as [b|]; simpl;
      rewrite ?IH; reflexivity. }
  rewrite Hg, Hc. simpl.
  destruct f0 as [|f0]; [done|]. simpl in Hv. rewrite Hc in Hv. simpl in Hv.
  destruct (Ascii.eqb (Chip.chipType c) "I"); [done|].
  destruct (Ascii.eqb (Chip.chipType c) "A");
    [destruct (Chip.input1 c), (Chip.input2 c); simpl; rewrite ?IH; reflexivity|].
  destruct (Ascii.eqb (Chip.chipType c) "S");
    [destruct (Chip.input1 c), (Chip.input2 c); simpl; rewrite ?IH; reflexivity|].
  destruct (Ascii.eqb (Chip.chipType c) "M");
    [destruct (Chip.input1 c), (Chip.input2 c); simpl; rewrite ?IH; reflexivity|].
  destruct (Ascii.eqb (Chip.chipType c) "D");
    [destruct (Chip.input1 c), (Chip.input2 c); simpl; rewrite ?IH; reflexivity|].
  destruct (Ascii.eqb (Chip.chipType c) "N"); [|congruence].
  destruct (Chip.input1 c) as [a|]; [|done]. simpl in *. rewrite IH.
  destruct (value fuel h a) as [va|] eqn:Hva; [|done]. simpl.
  destruct (value f0 h a) as [va'|] eqn:Hva'; [|done]. simpl in Hv.
  rewrite (value_agree _ _ _ _ _ _ Hva' Hva) in Hv.
  destruct (nonzero va); congruence.
Qed.

Lemma has_value_rebase fuel h h1 g q :
  partly_evaluated h h1 → has_value fuel h1 g q → has_value fuel h g q.
Proof.
  intros Hpe (v & c1 & Hv & Hc1 & Hg).
  rewrite (value_partly_evaluated _ _ Hpe) in Hv.
  destruct (Hpe q) as [Heq|(f0 & v0 & c & _ & Hc & Hc1')].
  - exists v, c1. by rewrite <- Heq.
  - exists v, c. split_and!; [done|done|].
    rewrite Hc1 in Hc1'. injection Hc1' as ->. by rewrite Hg.
Qed.

Lemma has_value_mono fuel fuel' h g q :
  has_value fuel h g q → fuel ≤ fuel' → has_value fuel' h g q.
Proof.
  intros (v & c & Hv & Hc & Hg) Hle. exists v, c.
  split_and!; [by eapply value_mono|done|done].
Qed.

Lemma has_value_same fuel h g g' q :
  g' !! q = g !! q → has_value fuel h g q → has_value fuel h g' q.
Proof. intros Heq (v & c & Hv & Hc & Hg). exists v, c. by rewrite Heq. Qed.

Lemma read_value fuel h h2 (slot : option ptr) r :
  Chip.getResult h2 slot = Ok r →
  (∀ x, slot = Some x → has_value fuel h h2 x) →
  ∃ x, slot = Some x ∧ value fuel h x = Some r.
Proof.
  unfold Chip.getResult, Chip.arrow, Chip.deref. intros Hr Hin.
  destruct slot as [x|]; [|done]. exists x. split; [done|].
  destruct (Hin x eq_refl) as (v & c & Hv & _ & Hx). rewrite Hx in Hr.
  by injection Hr as <-.
Qed.

(** One operation step, read against [value]. *)
Lemma operate_value fuel h h2 p c h' o :
  h !! p = Some c → h2 !! p = Some c → Chip.chipType c ≠ "I"%char →
  Chip.operate h2 p = Ok (h', o) →
  (∀ x, Chip.input1 c = Some x ∨ Chip.input2 c = Some x → has_value fuel h h2 x) →
  ∃ v, value (S fuel) h p = Some v ∧
       h' !! p = Some (Chip.with_result v c) ∧
       ∀ q, q ≠ p → h' !! q = h2 !! q.
Proof.
  intros Hc Hc2 HI Hop Hin.
  assert (Hin1 : ∀ x, Chip.input1 c = Some x → has_value fuel h h2 x) by eauto.
  assert (Hin2 : ∀ x, Chip.input2 c = Some x → has_value fuel h h2 x) by eauto.
  assert (Hset : ∀ v, Chip.setResult h2 p v !! p = Some (Chip.with_result v c) ∧
                      ∀ q, q ≠ p → Chip.setResult h2 p v !! q = h2 !! q).
  { intros v. split; [by apply setResult_lookup|]. intros q Hq.
    by apply setResult_lookup_ne. }
  assert (Hkeep : h2 !! p = Some (Chip.with_result (Chip.result c) c))
    by (by rewrite with_result_result).
  unfold Chip.operate in Hop. rewrite (proj2 (deref_Ok _ _ _) Hc2) in Hop.
  simpl in Hop. simpl. rewrite Hc. simpl.
  destruct (Ascii.eqb_spec (Chip.chipType c) "I"); [done|].
  destruct (Ascii.eqb (Chip.chipType c) "A").
  { apply bind_Ok in Hop as (ra & Hra & Hop). apply bind_Ok in Hop as (rb & Hrb & Hop).
    injection Hop as <- _.
    destruct (read_value _ _ _ _ _ Hra Hin1) as (a & Hi1 & Hva).
    destruct (read_value _ _ _ _ _ Hrb Hin2) as (b & Hi2 & Hvb).
    rewrite Hi1, Hi2. simpl. rewrite Hva. simpl. rewrite Hvb. simpl. by eauto. }
  destruct (Ascii.eqb (Chip.chipType c) "S").
  { apply bind_Ok in Hop as (ra & Hra & Hop). apply bind_Ok in Hop as (rb & Hrb & Hop).
    injection Hop as <- _.
    destruct (read_value _ _ _ _ _ Hra Hin1) as (a & Hi1 & Hva).
    destruct (read_value _ _ _ _ _ Hrb Hin2) as (b & Hi2 & Hvb).
    rewrite Hi1, Hi2. simpl. rewrite Hva. simpl. rewrite Hvb. simpl. by eauto. }
  destruct (Ascii.eqb (Chip.chipType c) "M").
  { apply bind_Ok in Hop as (ra & Hra & Hop). apply bind_Ok in Hop as (rb & Hrb & Hop).
    injection Hop as <- _.
    destruct (read_value _ _ _ _ _ Hra Hin1) as (a & Hi1 & Hva).
    destruct (read_value _ _ _ _ _ Hrb Hin2) as (b & Hi2 & Hvb).
    rewrite Hi1, Hi2. simpl. rewrite Hva. simpl. rewrite Hvb. simpl. by eauto. }
  destruct (Ascii.eqb (Chip.chipType c) "D").
  { apply bind_Ok in Hop as (rb & Hrb & Hop).
    destruct (read_value _ _ _ _ _ Hrb Hin2) as (b & Hi2 & Hvb).
    rewrite Hi2 in *. simpl. rewrite Hvb. simpl.
    destruct (nonzero rb).
    - apply bind_Ok in Hop as (ra & Hra & Hop).
      apply bind_Ok in Hop as (rb' & Hrb' & Hop). injection Hop as <- _.
      destruct (read_value _ _ _ _ _ Hra Hin1) as (a & Hi1 & Hva).
      rewrite Hi1. simpl. rewrite Hva. simpl.
      rewrite Hrb in Hrb'. injection Hrb' as <-. by eauto.
    - injection Hop as <- _. by eauto. }
  destruct (Ascii.eqb (Chip.chipType c) "N").
  { apply bind_Ok in Hop as (ra & Hra & Hop).
    destruct (read_value _ _ _ _ _ Hra Hin1) as (a & Hi1 & Hva).
    rewrite Hi1 in *. simpl. rewrite Hva. simpl.
    destruct (nonzero ra).
    - apply bind_Ok in Hop as (ra' & Hra' & Hop). injection Hop as <- _.
      rewrite Hra in Hra'. injection Hra' as <-. by eauto.
    - injection Hop as <- _. by eauto. }
  injection Hop as <- _. by eauto.
Qed.

(** After a [compute] on [p] that returns, every chip has either been left
    alone or holds its value, and every chip at or upstream of [p] holds its
    value. *)
Lemma compute_values fuel h p h' o :
  Chip.compute fuel h p = Ok (h', o) →
  (∀ q, h' !! q = h !! q ∨ (rtc (edge h) p q ∧ has_value fuel h h' q)) ∧
  (∀ q, rtc (edge h) p q → has_value fuel h h' q).
Proof.
  revert h p h' o. induction fuel as [|fuel IH]; intros h p h' o H; [done|].
  assert (Hacyc := compute_acyclic _ _ _ _ H).
  apply compute_S_inv in H
    as (c & Hc & [(HI & -> & _)|(HI & h2 & o2 & o3 & Hin & Hop & _)]).
  { assert (Hp : has_value (S fuel) h (Chip.setResult h p (Chip.inputValue c)) p).
    { exists (Chip.inputValue c), c. simpl. rewrite Hc. simpl. rewrite HI.
      split_and!; [done|done|by apply setResult_lookup]. }
    split.
    - intros q. destruct (decide (q = p)) as [->|Hq]; [by right|left].
      by apply setResult_lookup_ne.
    - intros q Hrtc. apply rtc_inv in Hrtc as [<-|(x & (c' & Hc' & HnI & _) & _)]; [done|].
      congruence. }
  assert (Hfr := compute_inputs_frame _ _ _ _ _ _ p Hc HI Hin Hacyc).
  rewrite Hc in Hfr.
  apply compute_inputs_inv in Hin
    as (c0 & h1 & o1 & c1 & o2' & Hc0 & H1 & Hc1 & H2 & _).
  rewrite Hc in Hc0. injection Hc0 as <-.
  assert (Hs1 : same_shape h h1).
  { destruct (Chip.input1 c); [by eapply compute_shape|by simplify_eq]. }
  destruct (same_shape_members _ _ _ _ Hs1 Hc) as (c1' & Hc1' & _ & _ & _ & Hi2eq & _).
  rewrite Hc1 in Hc1'. injection Hc1' as <-.
  (* input1 *)
  assert (Ra : (∀ q, h1 !! q = h !! q ∨ (rtc (edge h) p q ∧ has_value fuel h h1 q)) ∧
               (∀ a, Chip.input1 c = Some a →
                     ∀ q, rtc (edge h) a q → has_value fuel h h1 q)).
  { destruct (Chip.input1 c) as [a|] eqn:Hi1.
    - destruct (IH _ _ _ _ H1) as [HR HC]. split.
      + intros q. destruct (HR q) as [?|[Hrtc Hv]]; [by left|right]. split; [|done].
        apply (rtc_l _ _ a); [|done]. exists c. eauto.
      + by intros a' [= <-].
    - injection H1 as <- _. split; [by left|done]. }
  destruct Ra as [Ra Ca].
  assert (Hpe1 : partly_evaluated h h1).
  { intros q. destruct (Ra q) as [?|[_ ?]]; [by left|right; by exists fuel]. }
  (* input2 *)
  assert (Rb : (∀ q, h2 !! q = h1 !! q ∨ (rtc (edge h) p q ∧ has_value fuel h h2 q)) ∧
               (∀ b, Chip.input2 c = Some b →
                     ∀ q, rtc (edge h) b q → has_value fuel h h2 q)).
  { destruct (Chip.input2 c1) as [b|] eqn:Hi2.
    - destruct (IH _ _ _ _ H2) as [HR HC]. split.
      + intros q. destruct (HR q) as [?|[Hrtc Hv]]; [by left|right]. split.
        * apply (rtc_l _ _ b); [exists c; split_and!; [done|done|right; congruence]|].
          apply (same_shape_rtc h1 h); [by apply same_shape_sym|done].
        * by apply (has_value_rebase _ h h1).
      + intros b' Hb' q Hrtc. assert (b' = b) as -> by congruence.
        apply (has_value_rebase _ h h1); [done|]. apply HC.
        by apply (same_shape_rtc h h1).
    - injection H2 as <- _. split; [by left|]. intros b Hb. congruence. }
  destruct Rb as [Rb Cb].
  assert (Hcone2 : ∀ x, Chip.input1 c = Some x ∨ Chip.input2 c = Some x →
                        ∀ q, rtc (edge h) x q → has_value fuel h h2 q).
  { intros x [Hx|Hx] q Hrtc; [|by apply (Cb x Hx)].
    destruct (Rb q) as [Heq|[_ ?]]; [|done].
    apply (has_value_same _ _ h1); [done|]. by apply (Ca x Hx). }
  (* the operation *)
  destruct (operate_value fuel h h2 p c h' o3 Hc Hfr HI Hop) as (v & Hv & Hp' & Hframe).
  { intros x Hx. by apply (Hcone2 x Hx x). }
  assert (Hp : has_value (S fuel) h h' p) by (by exists v, c).
  split.
  - intros q. destruct (decide (q = p)) as [->|Hq]; [by right|].
    destruct (Rb q) as [Heq2|[Hrtc Hv2]].
    + destruct (Ra q) as [Heq1|[Hrtc Hv1]].
      * left. by rewrite (Hframe q Hq), Heq2.
      * right. split; [done|]. apply (has_value_mono fuel); [|lia].
        apply (has_value_same _ _ h1); [|done]. by rewrite (Hframe q Hq).
    + right. split; [done|]. apply (has_value_mono fuel); [|lia].
      apply (has_value_same _ _ h2); [|done]. by apply Hframe.
  - intros q Hrtc. destruct (decide (q = p)) as [->|Hq]; [done|].
    apply rtc_inv in Hrtc as [?|(x & (c' & Hc' & _ & Hx) & Hrtc)]; [congruence|].
    rewrite Hc in Hc'. injection Hc' as <-.
    apply (has_value_mono fuel); [|lia].
    apply (has_value_same _ _ h2); [by apply Hframe|]. by apply (Hcone2 x Hx).
Qed.

(** X19: [compute] is the pure evaluator [value] run over the chips at and
    upstream of [p]: when it returns, each of them holds in [result] its
    value in the registry before the call, and is otherwise as before. *)
Theorem compute_agrees_with_value
    (fuel : nat) (h h' : Chip.heap) (o : list line) (p : ptr) :
  Chip.compute fuel h p = Ok (h', o) →
  ∀ q, rtc (edge h) p q →
    ∃ v c, value fuel h q = Some v ∧ h !! q = Some c ∧
           h' !! q = Some (Chip.with_result v c).
Proof. intros H q Hq. by apply (compute_values _ _ _ _ _ H). Qed.

Lemma compute_agrees_with_value_witness :
  ∃ v c, value 2 adder_circuit 2 = Some v ∧ adder_circuit !! 2 = Some c ∧
         Chip.setResult (Chip.setResult (Chip.setResult adder_circuit 0 3) 1 4) 2 7 !! 2
         = Some (Chip.with_result v c).
Proof.
  apply (compute_agrees_with_value 2 adder_circuit _ [] 2 eq_refl 2). done.
Defined.

(** ** Asking twice *)

Lemma operate_effect h p :
  Chip.operate h p
  = c ← Chip.deref h p;
    '(upd, o) ← op_effect c (Chip.getResult h (Chip.input1 c))
                            (Chip.getResult h (Chip.input2 c));
    Ok (match upd with Some v => Chip.setResult h p v | None => h end, o).
Proof.
  unfold Chip.operate, op_effect. destruct (Chip.deref h p) as [c| |]; [|done|done].
  simpl.
  destruct (Chip.getResult h (Chip.input1 c)) as [r1| |],
    (Chip.getResult h (Chip.input2 c)) as [r2| |]; simpl;
    repeat case_match; simpl; try done.
Qed.

Lemma partly_evaluated_refl h : partly_evaluated h h.
Proof. intros q. by left. Qed.

Lemma partly_evaluated_shape h g : partly_evaluated h g → same_shape h g.
Proof.
  intros Hpe q. destruct (Hpe q) as [Heq|(f & v & c & _ & Hc & Hg)].
  - by rewrite Heq.
  - by rewrite Hc, Hg.
Qed.

Lemma partly_evaluated_trans h g g1 :
  partly_evaluated h g → partly_evaluated g g1 → partly_evaluated h g1.
Proof.
  intros Hpe Hpe1 q. destruct (Hpe1 q) as [Heq|[f Hv]].
  - destruct (Hpe q) as [Heq'|[f Hv]]; [left; congruence|].
    right. exists f. by apply (has_value_same _ _ g).
  - right. exists f. by apply (has_value_rebase _ h g).
Qed.

Lemma compute_partly_evaluated fuel h p h' o :
  Chip.compute fuel h p = Ok (h', o) → partly_evaluated h h'.
Proof.
  intros H q. destruct (proj1 (compute_values _ _ _ _ _ H) q) as [?|[_ ?]];
    [by left|right; by exists fuel].
Qed.

Lemma has_value_unrebase fuel h h1 g q :
  partly_evaluated h h1 → has_value fuel h g q → has_value fuel h1 g q.
Proof.
  intros Hpe (v & c & Hv & Hc & Hg).
  rewrite <- (value_partly_evaluated _ _ Hpe) in Hv.
  destruct (Hpe q) as [Heq|(f0 & v0 & c' & _ & Hc' & Hc1)].
  - exists v, c. by rewrite Heq.
  - rewrite Hc in Hc'. injection Hc' as <-.
    exists v, (Chip.with_result v0 c). by rewrite Hg.
Qed.

(** Two chips that both hold the value of [q] are the same chip. *)
Lemma has_value_eq fuel1 fuel2 h g1 g2 q :
  has_value fuel1 h g1 q → has_value fuel2 h g2 q → g1 !! q = g2 !! q.
Proof.
  intros (v1 & c1 & Hv1 & Hc1 & ->) (v2 & c2 & Hv2 & Hc2 & ->).
  rewrite Hc1 in Hc2. injection Hc2 as <-.
  by rewrite (value_agree _ _ _ _ _ _ Hv1 Hv2).
Qed.

(** Running the same [compute] from [h] and from a partly evaluated [g]
    keeps the two registries in that relation. *)
Lemma compute_keeps_partly_evaluated fuel h g p h1 g1 o o' :
  Chip.compute fuel h p = Ok (h1, o) → Chip.compute fuel g p = Ok (g1, o') →
  partly_evaluated h g → partly_evaluated h1 g1.
Proof.
  intros Hh Hg Hpe q.
  assert (Hpe1 := compute_partly_evaluated _ _ _ _ _ Hh).
  assert (Hs := partly_evaluated_shape _ _ Hpe).
  destruct (compute_values _ _ _ _ _ Hh) as [Rh Ch].
  destruct (compute_values _ _ _ _ _ Hg) as [Rg Cg].
  assert (Hfinal : has_value fuel g g1 q → ∃ f, has_value f h1 g1 q).
  { intros Hv. exists fuel. apply (has_value_unrebase _ h); [done|].
    by apply (has_value_rebase _ h g). }
  destruct (Rg q) as [Heq|[_ Hv]]; [|right; by apply Hfinal].
  destruct (Hpe q) as [Heq'|[f0 Hv0]].
  - destruct (Rh q) as [Heq1|[Hrtc _]]; [left; congruence|].
    right. apply Hfinal, Cg. by apply (same_shape_rtc h g).
  - right. exists f0. apply (has_value_unrebase _ h); [done|].
    by apply (has_value_same _ _ g).
Qed.

Lemma compute_inputs_fwd rec h p c h1 o1 c1 h2 o2 :
  h !! p = Some c →
  match Chip.input1 c with Some a => rec h a | None => Ok (h, []) end = Ok (h1, o1) →
  h1 !! p = Some c1 →
  match Chip.input2 c1 with Some b => rec h1 b | None => Ok (h1, []) end = Ok (h2, o2) →
  Chip.compute_inputs rec h p = Ok (h2, o1 ++ o2).
Proof.
  intros Hc H1 Hc1 H2. unfold Chip.compute_inputs.
  rewrite (proj2 (deref_Ok _ _ _) Hc). simpl. rewrite H1. simpl.
  rewrite (proj2 (deref_Ok _ _ _) Hc1). simpl. by rewrite H2.
Qed.

Lemma getResult_ext (g h : Chip.heap) (slot : option ptr) :
  (∀ x, slot = Some x → g !! x = h !! x) → Chip.getResult g slot = Chip.getResult h slot.
Proof.
  intros Hx. unfold Chip.getResult, Chip.arrow, Chip.deref.
  destruct slot as [x|]; [|done]. by rewrite (Hx x).
Qed.

Lemma op_effect_ext c c' r1 r2 :
  Chip.chipType c' = Chip.chipType c → Chip.id c' = Chip.id c →
  op_effect c' r1 r2 = op_effect c r1 r2.
Proof. intros Hty Hid. unfold op_effect, division_by_zero_line. by rewrite Hty, Hid. Qed.

(** A [compute] that returns from [h] returns, with the same lines, from
    every registry that is [h] partly evaluated. *)
Lemma compute_again fuel h p h' o g :
  Chip.compute fuel h p = Ok (h', o) → partly_evaluated h g →
  ∃ g', Chip.compute fuel g p = Ok (g', o).
Proof.
  revert h p h' o g. induction fuel as [|fuel IH]; intros h p h' o g H Hpe; [done|].
  assert (Hacyc := compute_acyclic _ _ _ _ H).
  assert (Hs := partly_evaluated_shape _ _ Hpe).
  destruct (compute_values _ _ _ _ _ H) as [_ Cfull].
  apply compute_S_inv in H
    as (c & Hc & [(HI & -> & ->)|(HI & h2 & o2 & o3 & Hin & Hop & ->)]).
  { destruct (same_shape_members _ _ _ _ Hs Hc) as (cg & Hcg & Hty & _).
    rewrite (compute_Input _ _ _ _ Hcg); [by eauto|congruence]. }
  destruct (same_shape_members _ _ _ _ Hs Hc) as (cg & Hcg & Htyg & Hidg & Hi1g & Hi2g & _).
  assert (HIg : Chip.chipType cg ≠ "I"%char) by congruence.
  assert (Hfr := compute_inputs_frame _ _ _ _ _ _ p Hc HI Hin Hacyc).
  rewrite Hc in Hfr.
  apply compute_inputs_inv in Hin
    as (c0 & h1 & o1 & c1 & o2' & Hc0 & H1 & Hc1 & H2 & ->).
  rewrite Hc in Hc0. injection Hc0 as <-.
  (* input1 *)
  assert (same_shape h h1 ∧ partly_evaluated h h1) as [Hs1 Hpeh1].
  { destruct (Chip.input1 c).
    - split; [by eapply compute_shape|by eapply compute_partly_evaluated].
    - injection H1 as <- _. split; [done|apply partly_evaluated_refl]. }
  destruct (same_shape_members _ _ _ _ Hs1 Hc) as (c1' & Hc1' & _ & _ & _ & Hi2c1 & _).
  rewrite Hc1 in Hc1'. injection Hc1' as <-.
  assert (∃ g1, match Chip.input1 cg with
                | Some a => Chip.compute fuel g a
                | None => Ok (g, [])
                end = Ok (g1, o1) ∧ partly_evaluated h1 g1) as (g1 & G1 & Hpe1).
  { rewrite Hi1g. destruct (Chip.input1 c) as [a|].
    - destruct (IH _ _ _ _ g H1 Hpe) as [g1 G1]. exists g1. split; [done|].
      by eapply compute_keeps_partly_evaluated.
    - injection H1 as <- <-. by exists g. }
  assert (Hsg1 : same_shape g g1).
  { destruct (Chip.input1 cg); [by eapply compute_shape|by simplify_eq]. }
  destruct (same_shape_members _ _ _ _ Hsg1 Hcg) as (cg1 & Hcg1 & _ & _ & _ & Hi2g1 & _).
  (* input2 *)
  assert (Hpeh12 : partly_evaluated h1 h2).
  { destruct (Chip.input2 c1).
    - by eapply compute_partly_evaluated.
    - injection H2 as <- _. apply partly_evaluated_refl. }
  assert (∃ g2, match Chip.input2 cg1 with
                | Some b => Chip.compute fuel g1 b
                | None => Ok (g1, [])
                end = Ok (g2, o2') ∧ partly_evaluated h2 g2) as (g2 & G2 & Hpe2).
  { rewrite Hi2g1, Hi2g, <- Hi2c1. destruct (Chip.input2 c1) as [b|].
    - destruct (IH _ _ _ _ g1 H2 Hpe1) as [g2 G2]. exists g2. split; [done|].
      by eapply compute_keeps_partly_evaluated.
    - injection H2 as <- <-. by exists g1. }
  assert (Gin := compute_inputs_fwd _ _ _ _ _ _ _ _ _ Hcg G1 Hcg1 G2).
  assert (Hfrg : g2 !! p = Some cg).
  { rewrite <- Hcg. apply (compute_inputs_frame _ _ _ _ _ _ p Hcg HIg Gin).
    intros Htc. apply Hacyc. apply (same_shape_tc g h); [by apply same_shape_sym|done]. }
  (* the inputs hold the same chips in [g2] and [h2] *)
  assert (Hsame : ∀ x, Chip.input1 c = Some x ∨ Chip.input2 c = Some x →
                       g2 !! x = h2 !! x).
  { intros x Hx.
    assert (Hedge : edge h p x) by (exists c; eauto).
    assert (Hxp : x ≠ p) by (intros ->; by apply Hacyc, tc_once).
    assert (Hvh : has_value (S fuel) h h2 x).
    { apply (has_value_same _ _ h'); [|by apply Cfull, rtc_once].
      symmetry. by apply (operate_frame _ _ _ _ _ Hop). }
    destruct (Hpe2 x) as [?|[f0 Hv0]]; [done|].
    apply (has_value_eq f0 (S fuel) h); [|done].
    apply (has_value_rebase _ h h2); [|done].
    by apply (partly_evaluated_trans h h1 h2). }
  (* the operation *)
  rewrite operate_effect, (proj2 (deref_Ok _ _ _) Hfr) in Hop. simpl in Hop.
  apply bind_Ok in Hop as ([upd o3'] & Heff & Hop). injection Hop as _ <-.
  rewrite (compute_S_eq _ _ _ _ Hcg HIg), Gin. simpl.
  rewrite operate_effect, (proj2 (deref_Ok _ _ _) Hfrg). simpl.
  rewrite (op_effect_ext c cg) by done. rewrite Hi1g, Hi2g.
  rewrite (getResult_ext g2 h2 (Chip.input1 c)) by (intros x Hx; apply Hsame; by left).
  rewrite (getResult_ext g2 h2 (Chip.input2 c)) by (intros x Hx; apply Hsame; by right).
  rewrite Heff. simpl. eauto.
Qed.

Lemma compute_twice fuel h p h' o :
  Chip.compute fuel h p = Ok (h', o) → Chip.compute fuel h' p = Ok (h', o).
Proof.
  intros H. assert (Hpe := compute_partly_evaluated _ _ _ _ _ H).
  destruct (compute_again _ _ _ _ _ h' H Hpe) as [g' G].
  assert (g' = h') as ->; [|done]. apply list_eq. intros q.
  destruct (proj1 (compute_values _ _ _ _ _ G) q) as [?|[Hrtc Hv]]; [done|].
  apply (has_value_eq fuel fuel h).
  - by apply (has_value_rebase _ h h').
  - apply (compute_values _ _ _ _ _ H).
    apply (same_shape_rtc h' h); [|done].
    by apply same_shape_sym, partly_evaluated_shape.
Qed.

(** X20: [compute] is idempotent: run again on the registry it has just
    left, with the same recursion budget, it returns, prints the same lines
    and changes nothing. *)
Theorem compute_is_idempotent
    (fuel : nat) (h h' : Chip.heap) (o : list line) (p : ptr) :
  Chip.compute fuel h p = Ok (h', o) →
  Chip.compute fuel h' p = Ok (h', o).
Proof. apply compute_twice. Qed.

Lemma compute_is_idempotent_witness :
  Chip.compute 2 (Chip.setResult (Chip.setResult (Chip.setResult divider_circuit 0 6) 1 0) 2 0) 2
  = Ok (Chip.setResult (Chip.setResult (Chip.setResult divider_circuit 0 6) 1 0) 2 0,
        [Text "Error: Division by zero in chip D1"]).
Proof. apply (compute_is_idempotent 2 divider_circuit). reflexivity. Defined.

Lemma find_first_ext h h' chipId :
  (∀ q, field Chip.id h' q = field Chip.id h q) →
  find_first h' 0 chipId = find_first h 0 chipId.
Proof.
  intros Hid. assert (Hspec := find_first_spec h 0 chipId).
  destruct (find_first h 0 chipId) as [p|].
  - destruct Hspec as (k & -> & Hk). apply find_first_resolves.
    by apply (first_with_id_ext h).
  - apply find_first_none. intros j. rewrite Hid. apply Hspec.
Qed.

(** X21: a QueryOutput command that ends normally can be repeated at once:
    the second time it prints the same lines and leaves the registry as the
    first one left it. *)
Theorem query_output_is_repeatable
    (fuel : nat) (h h' : Chip.heap) (o : list line) (outputChipId : string) :
  step fuel h (QueryOutput outputChipId) = Ok (h', o) →
  step fuel h' (QueryOutput outputChipId) = Ok (h', o).
Proof.
  simpl. intros H.
  assert (Hs := query_output_shape _ _ _ _ _ H).
  unfold query_output in *.
  rewrite (find_first_ext h h') by (intros q; by apply same_shape_field).
  destruct (find_first h 0 outputChipId) as [p|]; [|by simplify_eq].
  apply bind_Ok in H as (c & Hc%deref_Ok & H).
  destruct (same_shape_members _ _ _ _ Hs Hc) as (c' & Hc' & Hty & _).
  rewrite (proj2 (deref_Ok _ _ _) Hc'). simpl. unfold is_type in *. rewrite Hty.
  destruct (Ascii.eqb (Chip.chipType c) "O").
  - apply bind_Ok in H as ([h1 o1] & Hcomp & H).
    assert (h1 = h') as ->.
    { repeat inv_bind H. by simplify_eq. }
    by rewrite (compute_twice _ _ _ _ _ Hcomp).
  - apply bind_Ok in H as ([h1 o1] & Hcomp & H).
    assert (h1 = h') as ->.
    { repeat inv_bind H. by simplify_eq. }
    by rewrite (compute_twice _ _ _ _ _ Hcomp).
Qed.

Lemma query_output_is_repeatable_witness :
  step 3 (Chip.setResult (Chip.setResult (Chip.setResult divider_circuit 0 6) 1 0) 2 0)
         (QueryOutput "O1")
  = Ok (Chip.setResult (Chip.setResult (Chip.setResult divider_circuit 0 6) 1 0) 2 0,
        [Text "Computation Starts "; Text "Error: Division by zero in chip D1";
         OutputValue 0%float]).
Proof. apply (query_output_is_repeatable 3 divider_circuit). reflexivity. Defined.

(** X22: the number that a QueryOutput command prints is the evaluator's
    value, in the registry before the command, of the chip the id resolves
    to, or of that chip's input1 when it is of Output kind; the command's
    lines are the start line, the lines of [compute], and that number. *)
Theorem query_output_prints_value
    (fuel : nat) (h h' : Chip.heap) (o : list line) (outputChipId : string)
    (p : ptr) (c : Chip.t) :
  first_with_id h outputChipId p → h !! p = Some c →
  step fuel h (QueryOutput outputChipId) = Ok (h', o) →
  ∃ o1 v, Chip.compute fuel h p = Ok (h', o1) ∧
          o = Text "Computation Starts " :: o1 ++ [OutputValue v] ∧
          if Ascii.eqb (Chip.chipType c) "O"
          then ∃ m, Chip.input1 c = Some m ∧ value fuel h m = Some v
          else value fuel h p = Some v.
Proof.
  intros Hfirst Hc. simpl. unfold query_output.
  rewrite (find_first_resolves _ _ _ Hfirst), (proj2 (deref_Ok _ _ _) Hc). simpl.
  unfold is_type. intros H.
  assert (∃ o1 c' v, Chip.compute fuel h p = Ok (h', o1) ∧ h' !! p = Some c' ∧
            o = Text "Computation Starts " :: o1 ++ [OutputValue v] ∧
            if Ascii.eqb (Chip.chipType c) "O"
            then Chip.getResult h' (Chip.input1 c') = Ok v
            else v = Chip.result c') as (o1 & c' & v & Hcomp & Hc' & -> & Hv).
  { destruct (Ascii.eqb (Chip.chipType c) "O");
      apply bind_Ok in H as ([h1 o1] & Hcomp & H);
      apply bind_Ok in H as (c' & Hc'%deref_Ok & H).
    - apply bind_Ok in H as (v & Hv & [= <- <-]). by exists o1, c', v.
    - injection H as <- <-. by exists o1, c', (Chip.result c'). }
  exists o1, v. split_and!; [done|done|].
  destruct (compute_values _ _ _ _ _ Hcomp) as [_ Hcone].
  destruct (same_shape_members _ _ _ _ (compute_shape _ _ _ _ _ Hcomp) Hc)
    as (c'' & Hc'' & Hty & _ & Hi1 & _).
  rewrite Hc' in Hc''. injection Hc'' as <-.
  destruct (Ascii.eqb_spec (Chip.chipType c) "O") as [HO|HO].
  - unfold Chip.getResult, Chip.arrow, Chip.deref in Hv. rewrite Hi1 in Hv.
    destruct (Chip.input1 c) as [m|] eqn:Him; [|done]. exists m. split; [done|].
    destruct (Hcone m) as (vm & cm & Hvm & _ & Hm').
    { apply rtc_once. exists c. split_and!; [done|by rewrite HO|by left]. }
    rewrite Hm' in Hv. by injection Hv as <-.
  - destruct (Hcone p) as (vp & cp & Hvp & _ & Hp'); [done|].
    rewrite Hc' in Hp'. injection Hp' as ->. by rewrite Hv.
Qed.

Lemma query_output_prints_value_witness :
  ∃ o1 v, Chip.compute 3 adder_circuit 3
          = Ok (Chip.setResult (Chip.setResult (Chip.setResult adder_circuit 0 3) 1 4) 2 7,
                o1) ∧
          [Text "Computation Starts "; OutputValue 7%float]
          = Text "Computation Starts " :: o1 ++ [OutputValue v] ∧
          ∃ m, Some 2 = Some m ∧ value 3 adder_circuit m = Some v.
Proof.
  apply (query_output_prints_value 3 adder_circuit _
           [Text "Computation Starts "; OutputValue 7%float] "O1" 3
           (Chip.Make "O" "O1" (Some 2) None None 0 0));
    first [resolve_id | reflexivity].
Defined.
